(** * Node cleanup webhook: the plugin registry and the deletion watcher

    A shallow embedding of [pkg/plugins/plugin.go] (the revision that keeps
    [pluginOrder]) and of [pkg/watcher/watcher.go], with the constants of
    [pkg/constants/constants.go]; further on, of the shipped plugins, of the
    start-up in [cmd/webhook/main.go], of [pkg/webhook/server.go] and of
    [pkg/config/config.go].

    Conventions of the embedding:
    - a Go [map[string]T] is a [gmap string T]; reading a missing key gives
      the zero value of [T], written out with [default];
    - [sync.Map] used as a set of claimed names is a [gset string];
    - a Go [error] is [option error], [None] being [nil];
    - the buffered channel [workqueue] is a FIFO list;
    - a [go func() { ... }()] statement adds an entry to a list of goroutines
      that have been started and have not run yet;
    - the Kubernetes client is the object tracker of the fake clientset: a
      map from node names to node objects, plus the log of the patch requests
      that were sent;
    - logging calls ([klog]) have no counterpart. *)

From stdpp Require Import gmap strings list fin_maps.

Open Scope string_scope.
Open Scope list_scope.
Open Scope nat_scope.
Open Scope stdpp_scope.

(** ** Constants ([pkg/constants/constants.go]) *)

Definition FinalizerName : string := "infra.894.io/node-cleanup".
Definition SkipCleanupAnnotation : string := "infra.894.io/skip-cleanup".
Definition DefaultWorkQueueSize : nat := 100.

(** ** Errors

    [errorString] is what [errors.New] and a [fmt.Errorf] without [%w] build;
    [wrapError] is what [fmt.Errorf] with one [%w] verb builds: the formatted
    text and the wrapped cause. *)

Inductive error : Type :=
  | errorString (msg : string)
  | wrapError (msg : string) (cause : error).

Definition Error (e : error) : string :=
  match e with
  | errorString msg => msg
  | wrapError msg _ => msg
  end.

Definition Unwrap (e : error) : option error :=
  match e with
  | errorString _ => None
  | wrapError _ cause => Some cause
  end.

(** [fmt.Errorf("plugin %s not found", name)] *)
Definition errPluginNotFound (name : string) : error :=
  errorString ("plugin " +:+ name +:+ " not found").

(** [fmt.Errorf("plugin %s failed: %w", name, err)] *)
Definition errPluginFailed (name : string) (err : error) : error :=
  wrapError ("plugin " +:+ name +:+ " failed: " +:+ Error err) err.

(** [fmt.Errorf("plugin execution failed: %w", err)] *)
Definition errPluginExecution (err : error) : error :=
  wrapError ("plugin execution failed: " +:+ Error err) err.

(** [fmt.Errorf("failed to patch node: %w", err)] *)
Definition errPatchNode (err : error) : error :=
  wrapError ("failed to patch node: " +:+ Error err) err.

(** ** Nodes ([corev1.Node], the fields the watcher and the plugins read) *)

Record Node : Type := mkNode {
  node_Name : string;
  DeletionTimestamp : option Z;          (* *metav1.Time, nil is None *)
  Finalizers : list string;
  Annotations : gmap string string;
  Labels : gmap string string
}.

(** [node.Annotations[key]]: the empty string when the key is missing. *)
Definition annotation (node : Node) (key : string) : string :=
  default "" (Annotations node !! key).

Definition setFinalizers (node : Node) (fs : list string) : Node :=
  {| node_Name := node_Name node;
     DeletionTimestamp := DeletionTimestamp node;
     Finalizers := fs;
     Annotations := Annotations node;
     Labels := Labels node |}.

(** [containsFinalizer] of watcher.go. *)
Fixpoint containsFinalizer (finalizers : list string) (target : string) : bool :=
  match finalizers with
  | [] => false
  | f :: rest => if String.eqb f target then true else containsFinalizer rest target
  end.

(** * The plugin registry ([pkg/plugins/plugin.go]) *)

Section Registry.

(** What the cleanup operations act on (storage back ends, notification
    services, the cancellation state of the context): the registry and the
    watcher only thread it through. *)
Context {W : Type}.

(** The [Plugin] interface. [Cleanup] reads the node, acts on the world
    and returns an error or [nil]. *)
Record Plugin : Type := mkPlugin {
  Name : string;
  ShouldRun : Node → bool;
  Cleanup : Node → W → W * option error
}.

Record Registry : Type := mkRegistry {
  plugins : gmap string Plugin;
  enabled : gmap string bool;
  pluginOrder : list string
}.

Definition NewRegistry : Registry :=
  {| plugins := ∅; enabled := ∅; pluginOrder := [] |}.

Definition Register (plugin : Plugin) (r : Registry) : Registry :=
  {| plugins := <[Name plugin := plugin]> (plugins r);
     enabled := enabled r;
     pluginOrder := pluginOrder r |}.

Definition Enable (name : string) (r : Registry) : Registry * option error :=
  match plugins r !! name with
  | None => (r, Some (errPluginNotFound name))
  | Some _ =>
      ({| plugins := plugins r;
          enabled := <[name := true]> (enabled r);
          pluginOrder := pluginOrder r ++ [name] |}, None)
  end.

Definition Disable (name : string) (r : Registry) : Registry :=
  {| plugins := plugins r;
     enabled := <[name := false]> (enabled r);
     pluginOrder := pluginOrder r |}.

(** [r.enabled[name]] *)
Definition isEnabled (r : Registry) (name : string) : bool :=
  default false (enabled r !! name).

(** The outcome of one [RunAll]: the [Cleanup] calls that were made, in
    call order, each with the name it was made under and what it returned;
    the world the calls leave behind; and the returned error. *)
Record RunResult : Type := mkRunResult {
  calls : list (string * option error);
  worldAfter : W;
  runErr : option error
}.

(** The names whose [Cleanup] was called, in call order. *)
Definition invoked (res : RunResult) : list string := fst <$> calls res.

(** The loop of [RunAll] over (the rest of) [r.pluginOrder]. *)
Fixpoint RunAll_loop (r : Registry) (node : Node) (order : list string) (w : W)
  : RunResult :=
  match order with
  | [] => {| calls := []; worldAfter := w; runErr := None |}
  | name :: rest =>
      match plugins r !! name with
      | None => RunAll_loop r node rest w
      | Some plugin =>
          if negb (ShouldRun plugin node) then RunAll_loop r node rest w
          else
            match Cleanup plugin node w with
            | (w', Some err) =>
                {| calls := [(name, Some err)]; worldAfter := w';
                   runErr := Some (errPluginFailed name err) |}
            | (w', None) =>
                let res := RunAll_loop r node rest w' in
                {| calls := (name, None) :: calls res;
                   worldAfter := worldAfter res;
                   runErr := runErr res |}
            end
      end
  end.

Definition RunAll (r : Registry) (node : Node) (w : W) : RunResult :=
  RunAll_loop r node (pluginOrder r) w.

(** [first], and then [next] from the world [first] left, unless [first]
    returned an error. *)
Definition andThen (first : RunResult) (next : W → RunResult) : RunResult :=
  match runErr first with
  | Some _ => first
  | None =>
      let second := next (worldAfter first) in
      {| calls := calls first ++ calls second;
         worldAfter := worldAfter second;
         runErr := runErr second |}
  end.

(** Start-up as [cmd/webhook/main.go] does it: register the plugins, then
    enable the configured names one after the other. A name that cannot be
    enabled is reported and skipped. *)
Definition registerAll (ps : list Plugin) (r : Registry) : Registry :=
  foldl (λ acc p, Register p acc) r ps.

Definition enableAll (names : list string) (r : Registry) : Registry :=
  foldl (λ acc name, fst (Enable name acc)) r names.

(** The earlier revision of [RunAll] (first part of plugin.go), which walks
    the [plugins] map itself. A [range] over a Go map visits every key once,
    in an order the language leaves open: [iter] is the order one particular
    run takes, so what is proved of this loop is proved for every [iter]
    that lists the keys of [plugins], each once. *)
Fixpoint RunAll_unordered_loop (r : Registry) (node : Node) (iter : list string)
  (w : W) : RunResult :=
  match iter with
  | [] => {| calls := []; worldAfter := w; runErr := None |}
  | name :: rest =>
      match plugins r !! name with
      | None => RunAll_unordered_loop r node rest w
      | Some plugin =>
          if negb (isEnabled r name) then RunAll_unordered_loop r node rest w
          else if negb (ShouldRun plugin node) then RunAll_unordered_loop r node rest w
          else
            match Cleanup plugin node w with
            | (w', Some err) =>
                {| calls := [(name, Some err)]; worldAfter := w';
                   runErr := Some (errPluginFailed name err) |}
            | (w', None) =>
                let res := RunAll_unordered_loop r node rest w' in
                {| calls := (name, None) :: calls res;
                   worldAfter := worldAfter res;
                   runErr := runErr res |}
            end
      end
  end.

End Registry.

Arguments Plugin : clear implicits.
Arguments Registry : clear implicits.
Arguments RunResult : clear implicits.

(** * The deletion watcher ([pkg/watcher/watcher.go]) *)

Section Watcher.

Context {W : Type}.

(** A merge patch [{"metadata":{"finalizers":[...]}}] sent for a node. *)
Record Patch : Type := mkPatch {
  patch_node : string;
  patch_finalizers : list string
}.

(** The [Watcher] struct together with what its goroutines and its
    collaborators hold. [active] is the name the work-queue consumer of
    [Run] has received and is inside [processNode] for. *)
Record Watcher : Type := mkWatcher {
  client : gmap string Node;
  patches : list Patch;
  workqueue : list string;
  pluginRegistry : Registry W;
  processing : gset string;
  active : option string;
  finalizerAdds : list Node;
  retries : list string;
  world : W;
  cleanupCalls : list string
}.

Definition New (nodes : gmap string Node) (pluginRegistry : Registry W) (w0 : W)
  : Watcher :=
  {| client := nodes; patches := []; workqueue := [];
     pluginRegistry := pluginRegistry; processing := ∅; active := None;
     finalizerAdds := []; retries := []; world := w0; cleanupCalls := [] |}.

(** Field updates. *)
Definition setClient (w : Watcher) (c : gmap string Node) : Watcher :=
  mkWatcher c (patches w) (workqueue w) (pluginRegistry w) (processing w)
    (active w) (finalizerAdds w) (retries w) (world w) (cleanupCalls w).
Definition setPatches (w : Watcher) (ps : list Patch) : Watcher :=
  mkWatcher (client w) ps (workqueue w) (pluginRegistry w) (processing w)
    (active w) (finalizerAdds w) (retries w) (world w) (cleanupCalls w).
Definition setWorkqueue (w : Watcher) (q : list string) : Watcher :=
  mkWatcher (client w) (patches w) q (pluginRegistry w) (processing w)
    (active w) (finalizerAdds w) (retries w) (world w) (cleanupCalls w).
Definition setProcessing (w : Watcher) (s : gset string) : Watcher :=
  mkWatcher (client w) (patches w) (workqueue w) (pluginRegistry w) s
    (active w) (finalizerAdds w) (retries w) (world w) (cleanupCalls w).
Definition setActive (w : Watcher) (a : option string) : Watcher :=
  mkWatcher (client w) (patches w) (workqueue w) (pluginRegistry w) (processing w)
    a (finalizerAdds w) (retries w) (world w) (cleanupCalls w).
Definition setFinalizerAdds (w : Watcher) (l : list Node) : Watcher :=
  mkWatcher (client w) (patches w) (workqueue w) (pluginRegistry w) (processing w)
    (active w) l (retries w) (world w) (cleanupCalls w).
Definition setRetries (w : Watcher) (l : list string) : Watcher :=
  mkWatcher (client w) (patches w) (workqueue w) (pluginRegistry w) (processing w)
    (active w) (finalizerAdds w) l (world w) (cleanupCalls w).
Definition setWorld (w : Watcher) (x : W) (calls : list string) : Watcher :=
  mkWatcher (client w) (patches w) (workqueue w) (pluginRegistry w) (processing w)
    (active w) (finalizerAdds w) (retries w) x calls.

(** [w.client.CoreV1().Nodes().Get]: the object, or an error ([None]). *)
Definition Get (w : Watcher) (nodeName : string) : option Node :=
  client w !! nodeName.

(** [w.client.CoreV1().Nodes().Patch] with [types.MergePatchType]: the
    request is sent; on an existing node the array [metadata.finalizers]
    is replaced by the one of the patch. The only failure of [Get] and of
    [Patch] in this client is a node the cluster does not have. *)
Definition PatchNode (w : Watcher) (nodeName : string) (fs : list string)
  : Watcher * option error :=
  let w1 := setPatches w (patches w ++ [mkPatch nodeName fs]) in
  match client w !! nodeName with
  | None => (w1, Some (errorString ("nodes " +:+ nodeName +:+ " not found")))
  | Some node => (setClient w1 (<[nodeName := setFinalizers node fs]> (client w)), None)
  end.

(** [w.processing.LoadOrStore(name, true)]: the set afterwards and
    [loaded]. *)
Definition LoadOrStore (s : gset string) (name : string) : gset string * bool :=
  if decide (name ∈ s) then (s, true) else ({[name]} ∪ s, false).

(** [w.processing.Delete(name)] *)
Definition Delete (s : gset string) (name : string) : gset string :=
  s ∖ {[name]}.

(** The list that [addFinalizer] puts into its patch:
    [append(append([]string{}, node.Finalizers...), FinalizerName)].
    [json.Marshal] of a map that holds a slice of strings does not fail, so
    the branch for a marshalling error has no counterpart, here and in
    [removeFinalizer]. *)
Definition addFinalizer_list (node : Node) : list string :=
  ([] ++ Finalizers node) ++ [FinalizerName].

Definition addFinalizer (w : Watcher) (node : Node) : Watcher * option error :=
  let newFinalizers := addFinalizer_list node in
  match PatchNode w (node_Name node) newFinalizers with
  | (w', Some err) => (w', Some (errPatchNode err))
  | (w', None) => (w', None)
  end.

(** [ensureFinalizer]: the two guards, then the goroutine that will call
    [addFinalizer] on the node it was given. *)
Definition ensureFinalizer (w : Watcher) (node : Node) : Watcher :=
  if bool_decide (DeletionTimestamp node ≠ None) then w
  else if containsFinalizer (Finalizers node) FinalizerName then w
  else setFinalizerAdds w (finalizerAdds w ++ [node]).

(** [enqueueIfDeleting]. The send [w.workqueue <- node.Name] blocks while
    the channel holds [DefaultWorkQueueSize] names; the transition system
    below lets a call start only when it can run to its end. *)
Definition enqueueIfDeleting (w : Watcher) (node : Node) : Watcher :=
  if bool_decide (DeletionTimestamp node = None) then w
  else if negb (containsFinalizer (Finalizers node) FinalizerName) then w
  else
    match LoadOrStore (processing w) (node_Name node) with
    | (_, true) => w
    | (s, false) =>
        setWorkqueue (setProcessing w s) (workqueue w ++ [node_Name node])
    end.

(** The loop of [removeFinalizer] that builds [newFinalizers]. *)
Fixpoint removeFinalizer_loop (fs : list string) (newFinalizers : list string)
  : list string :=
  match fs with
  | [] => newFinalizers
  | f :: rest =>
      if negb (String.eqb f FinalizerName)
      then removeFinalizer_loop rest (newFinalizers ++ [f])
      else removeFinalizer_loop rest newFinalizers
  end.

Definition removeFinalizer_list (node : Node) : list string :=
  removeFinalizer_loop (Finalizers node) [].

Definition removeFinalizer (w : Watcher) (node : Node) : Watcher * option error :=
  let newFinalizers := removeFinalizer_list node in
  match PatchNode w (node_Name node) newFinalizers with
  | (w', Some err) => (w', Some (errPatchNode err))
  | (w', None) => (w', None)
  end.

(** [runCleanup]: [RunAll] on the registry; the calls it makes are added
    to [cleanupCalls]. *)
Definition runCleanup (w : Watcher) (node : Node) : Watcher * option error :=
  let res := RunAll (pluginRegistry w) node (world w) in
  let w' := setWorld w (worldAfter res) (cleanupCalls w ++ invoked res) in
  match runErr res with
  | Some err => (w', Some (errPluginExecution err))
  | None => (w', None)
  end.

(** [defer w.processing.Delete(nodeName)] at every return of
    [processNode]. *)
Definition release (w : Watcher) (nodeName : string) : Watcher :=
  setProcessing w (Delete (processing w) nodeName).

Definition processNode (w : Watcher) (nodeName : string) : Watcher :=
  match Get w nodeName with
  | None => release w nodeName
  | Some node =>
      if bool_decide (DeletionTimestamp node = None)
         || negb (containsFinalizer (Finalizers node) FinalizerName)
      then release w nodeName
      else if String.eqb (annotation node SkipCleanupAnnotation) "true"
      then release (fst (removeFinalizer w node)) nodeName
      else
        match runCleanup w node with
        | (w1, Some cleanupErr) =>
            (* go func() { select { case <-time.After(...) ... } }() *)
            release (setRetries w1 (retries w1 ++ [nodeName])) nodeName
        | (w1, None) =>
            match Get w1 nodeName with
            | None => release w1 nodeName
            | Some node' => release (fst (removeFinalizer w1 node')) nodeName
            end
        end
  end.

(** The retry goroutine when its timer fires. *)
Definition retryFire (w : Watcher) (nodeName : string) : Watcher :=
  let w1 := setProcessing w (Delete (processing w) nodeName) in
  match Get w1 nodeName with
  | Some n => enqueueIfDeleting w1 n
  | None => w1
  end.

(** The retry goroutine when the context is cancelled first. *)
Definition retryCancel (w : Watcher) (nodeName : string) : Watcher :=
  setProcessing w (Delete (processing w) nodeName).

(** ** The transition system

    One label per thing that can happen next: an informer callback
    ([AddFunc], [UpdateFunc]), a change of the node objects made by the
    cluster, a goroutine started by [ensureFinalizer] running, the consumer
    loop of [Run] receiving a name, [processNode] running on it, and a
    retry goroutine waking up.

    [processNode] reads and writes the in-flight set only in its deferred
    [Delete] and never touches the channel, so an attempt is split in two
    transitions: [LReceive] when the consumer takes the name, after which
    the attempt is under way, and [LProcess] when [processNode] returns.
    Whatever happens while the attempt is under way is a transition
    between the two. *)
Inductive Label : Type :=
  | LAdd (node : Node)
  | LUpdate (node : Node)
  | LCluster (nodes : gmap string Node)
  | LAddFinalizer
  | LReceive
  | LProcess
  | LRetryFire (nodeName : string)
  | LRetryCancel (nodeName : string).

(** Removes the first occurrence of [x]. *)
Fixpoint remove_first (x : string) (l : list string) : list string :=
  match l with
  | [] => []
  | y :: rest => if String.eqb x y then rest else y :: remove_first x rest
  end.

(** Whether [enqueueIfDeleting] on this node reaches the channel send. *)
Definition wouldSend (w : Watcher) (node : Node) : bool :=
  negb (bool_decide (DeletionTimestamp node = None))
  && containsFinalizer (Finalizers node) FinalizerName
  && negb (bool_decide (node_Name node ∈ processing w)).

Definition canEnqueue (w : Watcher) (node : Node) : bool :=
  negb (wouldSend w node)
  || bool_decide (length (workqueue w) < DefaultWorkQueueSize).

Definition step (w : Watcher) (l : Label) : option Watcher :=
  match l with
  | LAdd node => Some (ensureFinalizer w node)
  | LUpdate node =>
      let w1 := ensureFinalizer w node in
      if canEnqueue w1 node then Some (enqueueIfDeleting w1 node) else None
  | LCluster nodes => Some (setClient w nodes)
  | LAddFinalizer =>
      match finalizerAdds w with
      | [] => None
      | node :: rest => Some (fst (addFinalizer (setFinalizerAdds w rest) node))
      end
  | LReceive =>
      match active w, workqueue w with
      | None, nodeName :: rest => Some (setActive (setWorkqueue w rest) (Some nodeName))
      | _, _ => None
      end
  | LProcess =>
      match active w with
      | Some nodeName => Some (setActive (processNode w nodeName) None)
      | None => None
      end
  | LRetryFire nodeName =>
      if bool_decide (nodeName ∈ retries w) then
        let w1 := setRetries w (remove_first nodeName (retries w)) in
        match Get w1 nodeName with
        | Some n =>
            if canEnqueue (retryCancel w1 nodeName) n
            then Some (retryFire w1 nodeName) else None
        | None => Some (retryFire w1 nodeName)
        end
      else None
  | LRetryCancel nodeName =>
      if bool_decide (nodeName ∈ retries w)
      then Some (retryCancel (setRetries w (remove_first nodeName (retries w))) nodeName)
      else None
  end.

Fixpoint run (w : Watcher) (ls : list Label) : option Watcher :=
  match ls with
  | [] => Some w
  | l :: rest =>
      match step w l with
      | Some w' => run w' rest
      | None => None
      end
  end.

Definition reachable (w0 w : Watcher) : Prop := ∃ ls, run w0 ls = Some w.

(** ** What the in-flight set is meant to guarantee *)

(** How many cleanup attempts for [nodeName] are queued or active. *)
Definition attempts (w : Watcher) (nodeName : string) : nat :=
  length (filter (λ x, x = nodeName) (workqueue w))
  + (if bool_decide (active w = Some nodeName) then 1 else 0).

Definition inflightExact (w : Watcher) : Prop :=
  ∀ nodeName, nodeName ∈ processing w ↔ 0 < attempts w nodeName.

Definition atMostOneAttempt (w : Watcher) : Prop :=
  ∀ nodeName, attempts w nodeName ≤ 1.

(** The same two properties, said of the queue and the consumer directly:
    no name is queued twice, the name being processed is not queued, and
    the in-flight set holds exactly the queued names and the name being
    processed. *)
Definition inflightInv (w : Watcher) : Prop :=
  NoDup (workqueue w)
  ∧ (∀ nodeName, active w = Some nodeName → nodeName ∉ workqueue w)
  ∧ (∀ nodeName, nodeName ∈ processing w ↔
       nodeName ∈ workqueue w ∨ active w = Some nodeName).

(** The labels of the retry goroutine. *)
Definition isRetry (l : Label) : bool :=
  match l with
  | LRetryFire _ | LRetryCancel _ => true
  | _ => false
  end.

End Watcher.

Arguments Watcher : clear implicits.

(** * Concrete plugins, nodes and watchers

    The world of these scenarios is the list of the names of the cleanup
    operations that have acted on it. [logger] is the plugin of logger.go as
    far as the registry sees it: it applies to every node and succeeds. *)

Module Scenario.

Definition World : Type := list string.

Definition succeeding (name : string) : Plugin World :=
  {| Name := name;
     ShouldRun := λ _, true;
     Cleanup := λ _ w, (w ++ [name], None) |}.

Definition failing (name : string) (msg : string) : Plugin World :=
  {| Name := name;
     ShouldRun := λ _, true;
     Cleanup := λ _ w, (w ++ [name], Some (errorString msg)) |}.

Definition logger : Plugin World := succeeding "logger".
Definition drain : Plugin World := succeeding "drain".
Definition notify : Plugin World := succeeding "notify".
Definition storage : Plugin World := failing "storage" "decommission refused".

(** A node whose deletion has been requested and that carries the
    finalizer next to another one. *)
Definition deleting (name : string) (annotations : gmap string string) : Node :=
  {| node_Name := name;
     DeletionTimestamp := Some 1700000000%Z;
     Finalizers := ["other"; FinalizerName];
     Annotations := annotations;
     Labels := ∅ |}.

(** A node that is not being deleted. *)
Definition live (name : string) (finalizers : list string)
    (annotations : gmap string string) : Node :=
  {| node_Name := name;
     DeletionTimestamp := None;
     Finalizers := finalizers;
     Annotations := annotations;
     Labels := ∅ |}.

Definition n1 : Node := deleting "n1" ∅.

(** Registration order [notify, logger, drain]; enabling order
    [logger, drain, notify]. *)
Definition threePlugins : list (Plugin World) := [notify; logger; drain].
Definition threeEnabled : Registry World :=
  enableAll ["logger"; "drain"; "notify"] (registerAll threePlugins NewRegistry).

(** [drain], then the failing [storage], then [notify]. *)
Definition failingSecond : Registry World :=
  enableAll ["drain"; "storage"; "notify"]
    (registerAll [notify; storage; drain] NewRegistry).

(** [logger] registered, enabled and disabled again. *)
Definition loggerDisabled : Registry World :=
  Disable "logger" (Enable "logger" (Register logger NewRegistry)).1.

Definition loggerOnly : Registry World :=
  enableAll ["logger"] (registerAll [logger] NewRegistry).

Definition storageOnly : Registry World :=
  enableAll ["storage"] (registerAll [storage] NewRegistry).

(** A watcher over a cluster that holds exactly [node]. *)
Definition watching (node : Node) (r : Registry World) : Watcher World :=
  New {[node_Name node := node]} r [].

(** Deletion pending, finalizer present, skip annotation set to ["yes"]. *)
Definition skipYes : Node := deleting "n1" {[SkipCleanupAnnotation := "yes"]}.

(** Deletion pending, finalizer present, skip annotation set to ["true"]. *)
Definition skipTrue : Node := deleting "n1" {[SkipCleanupAnnotation := "true"]}.

(** Skip annotation set to ["true"] on a node nobody asked to delete. *)
Definition skipTrueLive : Node :=
  live "n2" [FinalizerName] {[SkipCleanupAnnotation := "true"]}.

(** The node of [n1] after its finalizer was taken away by someone else. *)
Definition n1Released : Node :=
  {| node_Name := "n1"; DeletionTimestamp := Some 1700000000%Z;
     Finalizers := ["other"]; Annotations := ∅; Labels := ∅ |}.

(** A watcher that has received ["n1"] from its queue by the time the
    node has lost the finalizer. *)
Definition staleReceived : Watcher World :=
  setActive (setProcessing (watching n1Released loggerOnly) {["n1"]}) (Some "n1").

(** A node that already carries the finalizer and is not being deleted. *)
Definition marked : Node := live "n3" ["other"; FinalizerName] ∅.

(** The watcher of a cluster where the cleanup of [n1] keeps failing. *)
Definition stuck : Watcher World := watching n1 storageOnly.

(** An update event for [n1] is queued and received, the cleanup fails and
    leaves a retry goroutine behind; a second update event for [n1] is
    queued and received; then the timer of the retry goroutine fires
    while the second attempt is running. *)
Definition retryDuringAttempt : list Label :=
  [LUpdate n1; LReceive; LProcess; LUpdate n1; LReceive; LRetryFire "n1"].

(** ... the second attempt ends, *)
Definition attemptEnds : list Label := retryDuringAttempt ++ [LProcess].

(** ... and a third update event for [n1] arrives. *)
Definition thirdUpdate : list Label := attemptEnds ++ [LUpdate n1].

End Scenario.

(** * Further parts of the code *)

(** ** The registry: [GetEnabledPlugins] and histories of calls *)

(** The loop of [GetEnabledPlugins]. [iter] is the sequence of entries the
    [range] statement visits in [r.enabled]; Go leaves that order open. *)
Fixpoint GetEnabledPlugins_loop (iter : list (string * bool)) (enabled : list string)
  : list string :=
  match iter with
  | [] => enabled
  | (name, isEnabled) :: rest =>
      if isEnabled : bool then GetEnabledPlugins_loop rest (enabled ++ [name])
      else GetEnabledPlugins_loop rest enabled
  end.

Definition GetEnabledPlugins (iter : list (string * bool)) : list string :=
  GetEnabledPlugins_loop iter [].

Section RegistryOps.

Context {W : Type}.

(** One call of a method that changes the registry. *)
Inductive RegistryOp : Type :=
  | OpRegister (plugin : Plugin W)
  | OpEnable (name : string)
  | OpDisable (name : string).

Definition applyOp (r : Registry W) (op : RegistryOp) : Registry W :=
  match op with
  | OpRegister plugin => Register plugin r
  | OpEnable name => (Enable name r).1
  | OpDisable name => Disable name r
  end.

Definition applyOps (ops : list RegistryOp) (r : Registry W) : Registry W :=
  foldl applyOp r ops.

(** Whether [RunAll] would call the plugin stored under [name]. *)
Definition applicable (r : Registry W) (node : Node) (name : string) : bool :=
  match plugins r !! name with
  | Some plugin => ShouldRun plugin node
  | None => false
  end.

(** A record of calls is what happens when, starting from the world [w],
    each named plugin is registered, applies to the node, and its [Cleanup]
    is applied to the world the call before it left and returns the recorded
    result; [wEnd] is the world the last call leaves. *)
Fixpoint replays (r : Registry W) (node : Node) (cs : list (string * option error))
    (w wEnd : W) : Prop :=
  match cs with
  | [] => wEnd = w
  | (name, res) :: rest =>
      ∃ plugin, plugins r !! name = Some plugin
                ∧ ShouldRun plugin node = true
                ∧ (Cleanup plugin node w).2 = res
                ∧ replays r node rest (Cleanup plugin node w).1 wEnd
  end.

End RegistryOps.

Arguments RegistryOp : clear implicits.

(** ** The shipped plugins ([logger.go], [portworx.go]) *)

Definition LoggerPluginName : string := "logger".
Definition PortworxPluginName : string := "portworx".
Definition PortworxEnabledLabel : string := "px/enabled".
Definition PortworxStatusLabel : string := "px/status".
Definition PortworxEnabledValue : string := "true".
Definition DefaultPortworxLabelSelector : string := "px/enabled=true".

(** What the shipped plugins depend on besides the node: whether the
    context is cancelled before the delay of the logger plugin is over. *)
Definition Cancelled : Type := bool.

(** [ctx.Err()] of a cancelled context. *)
Definition errCanceled : error := errorString "context canceled".

(** What the Go runtime reports when a nil pointer is dereferenced. *)
Definition errNilPointer : error :=
  errorString "runtime error: invalid memory address or nil pointer dereference".

(** [LoggerPlugin]: applies to every node. Its [Cleanup] starts by logging
    [node.DeletionTimestamp.Time]: on a node whose [DeletionTimestamp] is
    [nil] that dereferences a nil pointer and the call panics, which ends the
    run; the panic is represented by the runtime's error. Otherwise it waits
    in a [select] on the delay and on [ctx.Done()], and returns [ctx.Err()]
    if the context is done first. *)
Definition LoggerPlugin_ShouldRun (node : Node) : bool := true.

Definition LoggerPlugin_Cleanup (node : Node) (ctx : Cancelled)
  : Cancelled * option error :=
  match DeletionTimestamp node with
  | None => (ctx, Some errNilPointer)
  | Some _ => if ctx then (ctx, Some errCanceled) else (ctx, None)
  end.

Definition NewLoggerPlugin : Plugin Cancelled :=
  {| Name := LoggerPluginName;
     ShouldRun := LoggerPlugin_ShouldRun;
     Cleanup := LoggerPlugin_Cleanup |}.

(** [PortworxPlugin]: the embedded [BasePlugin] name and the label
    selector it was built with. *)
Record PortworxPlugin : Type := mkPortworxPlugin {
  px_name : string;
  labelSelector : string
}.

Definition PortworxPlugin_ShouldRun (p : PortworxPlugin) (node : Node) : bool :=
  if match Labels node !! PortworxEnabledLabel with
     | Some val => String.eqb val PortworxEnabledValue
     | None => false
     end
  then true
  else if match Labels node !! PortworxStatusLabel with
          | Some _ => true
          | None => false
          end
  then true
  else false.

(** The decommissioning is a placeholder that sleeps and returns [nil]; it
    does not look at the context. *)
Definition PortworxPlugin_Cleanup (p : PortworxPlugin) (node : Node) (ctx : Cancelled)
  : Cancelled * option error :=
  (ctx, None).

Definition NewPortworxPlugin (labelSelector : string) : PortworxPlugin :=
  {| px_name := PortworxPluginName;
     labelSelector :=
       if String.eqb labelSelector "" then DefaultPortworxLabelSelector
       else labelSelector |}.

(** A [*PortworxPlugin] as a value of the [Plugin] interface. *)
Definition PortworxAsPlugin (p : PortworxPlugin) : Plugin Cancelled :=
  {| Name := px_name p;
     ShouldRun := PortworxPlugin_ShouldRun p;
     Cleanup := PortworxPlugin_Cleanup p |}.

(** The registry [main] builds: both plugins registered, then the configured
    names enabled in order, a name that cannot be enabled being reported and
    passed over. *)
Definition mainRegistry (labelSelector : string) (enabledPlugins : list string)
  : Registry Cancelled :=
  enableAll enabledPlugins
    (Register (PortworxAsPlugin (NewPortworxPlugin labelSelector))
       (Register NewLoggerPlugin NewRegistry)).

(** ** The watcher: [initializeExistingNodes] *)

Section WatcherInit.

Context {W : Type}.

(** [w.client.CoreV1().Nodes().List]: the node objects of the cluster, in
    one order; the order in which a client returns them is not fixed by
    this. *)
Definition List (w : Watcher W) : list Node := (map_to_list (client w)).*2.

(** The loop of [initializeExistingNodes] over [nodes.Items], with its two
    counters. *)
Fixpoint initializeExistingNodes_loop (w : Watcher W) (items : list Node)
    (addedCount skippedCount : nat) : Watcher W * nat * nat :=
  match items with
  | [] => (w, addedCount, skippedCount)
  | node :: rest =>
      if bool_decide (DeletionTimestamp node ≠ None)
      then initializeExistingNodes_loop w rest addedCount (S skippedCount)
      else if containsFinalizer (Finalizers node) FinalizerName
      then initializeExistingNodes_loop w rest addedCount (S skippedCount)
      else
        match addFinalizer w node with
        | (w', Some err) => initializeExistingNodes_loop w' rest addedCount skippedCount
        | (w', None) => initializeExistingNodes_loop w' rest (S addedCount) skippedCount
        end
  end.

(** [fmt.Errorf("failed to list nodes: %w", err)] *)
Definition errListNodes (err : error) : error :=
  wrapError ("failed to list nodes: " +:+ Error err) err.

(** [initializeExistingNodes], given what the [List] call returns: the
    error, or the node objects in the order the client lists them. *)
Definition initializeExistingNodes_on (w : Watcher W) (listed : list Node + error)
  : Watcher W * option error :=
  match listed with
  | inr err => (w, Some (errListNodes err))
  | inl items => ((initializeExistingNodes_loop w items 0 0).1.1, None)
  end.

(** ... with a [List] call that succeeds and lists the nodes as [List]
    does. *)
Definition initializeExistingNodes (w : Watcher W) : Watcher W * option error :=
  initializeExistingNodes_on w (inl (List w)).

(** Whether the add paths act on a node: not being deleted and without the
    finalizer. *)
Definition lacksFinalizer (node : Node) : bool :=
  negb (bool_decide (DeletionTimestamp node ≠ None))
  && negb (containsFinalizer (Finalizers node) FinalizerName).

(** The node after the patch of [addFinalizer]. *)
Definition withFinalizer (node : Node) : Node :=
  setFinalizers node (Finalizers node ++ [FinalizerName]).

(** Every node object is stored under its own name. *)
Definition wellKeyed (nodes : gmap string Node) : Prop :=
  map_Forall (λ key node, node_Name node = key) nodes.

(** How often the finalizer occurs in a list. *)
Definition markerCount (fs : list string) : nat :=
  length (filter (λ f, f = FinalizerName) fs).

(** What the add and remove paths keep true of the patches sent so far and
    of the goroutines waiting to add the finalizer. *)
Definition patchesSound (w : Watcher W) : Prop :=
  Forall (λ p, markerCount (patch_finalizers p) ≤ 1) (patches w)
  ∧ Forall (λ n, lacksFinalizer n = true) (finalizerAdds w).

End WatcherInit.

(** ** Repeated attempts *)

Section Attempts.

Context {W : Type}.

(** The world before attempt number [i] (counted from 0) when every attempt
    runs [RunAll] on the same node. *)
Definition attemptWorld (r : Registry W) (node : Node) (x0 : W) (i : nat) : W :=
  Nat.iter i (λ x, worldAfter (RunAll r node x)) x0.

(** The cleanup calls of the first [i] attempts. *)
Fixpoint attemptCalls (r : Registry W) (node : Node) (x0 : W) (i : nat) : list string :=
  match i with
  | 0 => []
  | S j => attemptCalls r node x0 j
           ++ invoked (RunAll r node (attemptWorld r node x0 j))
  end.

(** An update event for the node, the attempt it leads to, and then [k]
    times: the retry timer fires and the attempt it leads to runs. *)
Definition retrySchedule (node : Node) (k : nat) : list Label :=
  [LUpdate node; LReceive; LProcess]
  ++ concat (replicate k [LRetryFire (node_Name node); LReceive; LProcess]).

(** The watcher of a cluster that holds just [node], with the node queued
    for attempt number [j]. *)
Definition queuedFor (r : Registry W) (node : Node) (x0 : W) (j : nat) : Watcher W :=
  {| client := {[node_Name node := node]}; patches := [];
     workqueue := [node_Name node]; pluginRegistry := r;
     processing := {[node_Name node]}; active := None; finalizerAdds := [];
     retries := [];
     world := attemptWorld r node x0 j; cleanupCalls := attemptCalls r node x0 j |}.

(** ... after attempt number [j] has failed, *)
Definition failedAt (r : Registry W) (node : Node) (x0 : W) (j : nat) : Watcher W :=
  {| client := {[node_Name node := node]}; patches := [];
     workqueue := []; pluginRegistry := r;
     processing := ∅; active := None; finalizerAdds := [];
     retries := [node_Name node];
     world := attemptWorld r node x0 (S j);
     cleanupCalls := attemptCalls r node x0 (S j) |}.

(** ... and after attempt number [j] has succeeded. *)
Definition cleanedAt (r : Registry W) (node : Node) (x0 : W) (j : nat) : Watcher W :=
  {| client :=
       {[node_Name node :=
           setFinalizers node (filter (λ f, f ≠ FinalizerName) (Finalizers node))]};
     patches :=
       [mkPatch (node_Name node) (filter (λ f, f ≠ FinalizerName) (Finalizers node))];
     workqueue := []; pluginRegistry := r;
     processing := ∅; active := None; finalizerAdds := [];
     retries := [];
     world := attemptWorld r node x0 (S j);
     cleanupCalls := attemptCalls r node x0 (S j) |}.

End Attempts.

(** ** The admission webhook ([pkg/webhook/server.go]) *)

(** [admissionv1.Create] *)
Definition OperationCreate : string := "CREATE".

(** One operation of a JSON patch, with the two kinds of value the webhook
    uses. *)
Inductive PatchValue : Type :=
  | ValueString (s : string)
  | ValueStrings (l : list string).

Record JSONPatchOp : Type := mkJSONPatchOp {
  op : string;
  path : string;
  value : PatchValue
}.

(** [admissionv1.AdmissionRequest], the fields [mutateNode] reads. *)
Record AdmissionRequest : Type := mkAdmissionRequest {
  Operation : string;
  ObjectRaw : string
}.

(** [admissionv1.AdmissionResponse]: [Result.Message] when a result is
    given, and the patch before it is marshalled; a patch always comes with
    the patch type [JSONPatch]. *)
Record AdmissionResponse : Type := mkAdmissionResponse {
  Allowed : bool;
  ResultMessage : option string;
  ResponsePatch : option (list JSONPatchOp)
}.

Section Webhook.

(** [json.Unmarshal(req.Object.Raw, &node)]: the node or the error. *)
Variable Unmarshal : string → Node + error.

(** [mutateNode]. The loop over [node.Finalizers] that returns at the
    finalizer is the loop of [containsFinalizer]. *)
Definition mutateNode (req : AdmissionRequest) : AdmissionResponse :=
  if negb (String.eqb (Operation req) OperationCreate)
  then {| Allowed := true; ResultMessage := None; ResponsePatch := None |}
  else
    match Unmarshal (ObjectRaw req) with
    | inr err =>
        {| Allowed := false;
           ResultMessage := Some ("failed to unmarshal node: " +:+ Error err);
           ResponsePatch := None |}
    | inl node =>
        if containsFinalizer (Finalizers node) FinalizerName
        then {| Allowed := true; ResultMessage := None; ResponsePatch := None |}
        else
          let patch :=
            if Nat.eqb (length (Finalizers node)) 0
            then [] ++ [mkJSONPatchOp "add" "/metadata/finalizers"
                          (ValueStrings [FinalizerName])]
            else [] ++ [mkJSONPatchOp "add" "/metadata/finalizers/-"
                          (ValueString FinalizerName)]
          in
          {| Allowed := true; ResultMessage := None; ResponsePatch := Some patch |}
    end.

End Webhook.

(** How the API server applies an [add] operation (RFC 6902) to the
    finalizers of a node: at the member itself the value becomes the list,
    at its end marker ["-"] the value is appended. Anything else is not an
    operation on the finalizers. *)
Definition applyJSONPatchOp (node : Node) (o : JSONPatchOp) : option Node :=
  if negb (String.eqb (op o) "add") then None
  else if String.eqb (path o) "/metadata/finalizers" then
    match value o with
    | ValueStrings l => Some (setFinalizers node l)
    | ValueString _ => None
    end
  else if String.eqb (path o) "/metadata/finalizers/-" then
    match value o with
    | ValueString s => Some (setFinalizers node (Finalizers node ++ [s]))
    | ValueStrings _ => None
    end
  else None.

Fixpoint applyJSONPatch (node : Node) (patch : list JSONPatchOp) : option Node :=
  match patch with
  | [] => Some node
  | o :: rest =>
      match applyJSONPatchOp node o with
      | Some node' => applyJSONPatch node' rest
      | None => None
      end
  end.

(** ** The configuration ([pkg/config/config.go]) *)

(** [strings.Split(s, ",")]: the fields between the commas, one more than
    there are commas. *)
Fixpoint SplitComma (s : string) : list string :=
  match s with
  | EmptyString => [""]
  | String c rest =>
      if String.eqb (String c "") "," then "" :: SplitComma rest
      else
        match SplitComma rest with
        | [] => [String c ""]
        | field :: fields => String c field :: fields
        end
  end.

Fixpoint countCommas (s : string) : nat :=
  match s with
  | EmptyString => 0
  | String c rest => (if String.eqb (String c "") "," then 1 else 0) + countCommas rest
  end.

Record PluginConfig : Type := mkPluginConfig {
  Enabled : bool;
  Options : gmap string string
}.

Record Config : Type := mkConfig {
  TLSCertFile : string;
  TLSKeyFile : string;
  Port : Z;
  Kubeconfig : string;
  InsecureSkipTLSVerify : bool;
  EnabledPlugins : list string;
  PluginConfigs : gmap string PluginConfig
}.

(** [os.Getenv]: the empty string for a variable that is not set. *)
Definition Getenv (env : gmap string string) (key : string) : string :=
  default "" (env !! key).

Definition getEnv (env : gmap string string) (key defaultValue : string) : string :=
  let value := Getenv env key in
  if negb (String.eqb value "") then value else defaultValue.

(** [isPluginEnabled] *)
Fixpoint isPluginEnabled_loop (names : list string) (pluginName : string) : bool :=
  match names with
  | [] => false
  | name :: rest =>
      if String.eqb name pluginName then true else isPluginEnabled_loop rest pluginName
  end.

Definition isPluginEnabled (c : Config) (pluginName : string) : bool :=
  isPluginEnabled_loop (EnabledPlugins c) pluginName.

Definition setPluginConfigs (c : Config) (pcs : gmap string PluginConfig) : Config :=
  mkConfig (TLSCertFile c) (TLSKeyFile c) (Port c) (Kubeconfig c)
    (InsecureSkipTLSVerify c) (EnabledPlugins c) pcs.

Definition loadPluginConfigs (env : gmap string string) (c : Config) : Config :=
  let c1 :=
    setPluginConfigs c
      (<["logger" :=
          {| Enabled := isPluginEnabled c "logger";
             Options :=
               <["verbosity" := getEnv env "LOGGER_VERBOSITY" "info"]>
                 (<["format" := getEnv env "LOGGER_FORMAT" "pretty"]> ∅) |}]>
         (PluginConfigs c)) in
  setPluginConfigs c1
    (<["portworx" :=
        {| Enabled := isPluginEnabled c1 "portworx";
           Options :=
             <["timeout" := getEnv env "PORTWORX_TIMEOUT" "300s"]>
               (<["apiEndpoint" :=
                   getEnv env "PORTWORX_API_ENDPOINT" "http://portworx-api:9001"]>
                  (<["labelSelector" :=
                      getEnv env "PORTWORX_LABEL_SELECTOR" "px/enabled=true"]> ∅)) |}]>
       (PluginConfigs c1)).

(** [GetPluginOption] *)
Definition GetPluginOption (c : Config) (pluginName optionName defaultValue : string)
  : string :=
  match PluginConfigs c !! pluginName with
  | Some cfg =>
      match Options cfg !! optionName with
      | Some val => if negb (String.eqb val "") then val else defaultValue
      | None => defaultValue
      end
  | None => defaultValue
  end.

Section LoadFromEnv.

(** [strings.TrimSpace], [strconv.Atoi] and [strconv.ParseBool] of the Go
    library; the last two give a value or fail. *)
Variable TrimSpace : string → string.
Variable Atoi : string → option Z.
Variable ParseBool : string → option bool.

Definition getEnvInt (env : gmap string string) (key : string) (defaultValue : Z) : Z :=
  let value := Getenv env key in
  if negb (String.eqb value "") then
    match Atoi value with
    | Some intVal => intVal
    | None => defaultValue
    end
  else defaultValue.

Definition getEnvBool (env : gmap string string) (key : string) (defaultValue : bool)
  : bool :=
  let value := Getenv env key in
  if negb (String.eqb value "") then
    match ParseBool value with
    | Some boolVal => boolVal
    | None => defaultValue
    end
  else defaultValue.

Definition LoadFromEnv (env : gmap string string) : Config :=
  let cfg :=
    {| TLSCertFile := getEnv env "TLS_CERT_FILE" "/etc/webhook/certs/tls.crt";
       TLSKeyFile := getEnv env "TLS_KEY_FILE" "/etc/webhook/certs/tls.key";
       Port := getEnvInt env "PORT" 8443;
       Kubeconfig := getEnv env "KUBECONFIG" "";
       InsecureSkipTLSVerify := getEnvBool env "INSECURE_SKIP_TLS_VERIFY" false;
       EnabledPlugins := [];
       PluginConfigs := ∅ |} in
  let plugins := getEnv env "ENABLED_PLUGINS" "logger" in
  let cfg :=
    if negb (String.eqb plugins "")
    then mkConfig (TLSCertFile cfg) (TLSKeyFile cfg) (Port cfg) (Kubeconfig cfg)
           (InsecureSkipTLSVerify cfg) (TrimSpace <$> SplitComma plugins)
           (PluginConfigs cfg)
    else cfg in
  loadPluginConfigs env cfg.

End LoadFromEnv.

(** ** More concrete clusters *)

Module Examples.

(** A node without any finalizer that nobody asked to delete. *)
Definition bare : Node := Scenario.live "n4" [] ∅.

(** Three nodes: pending deletion with the finalizer, live with it, live
    without it. *)
Definition cluster : gmap string Node :=
  <["n1" := Scenario.n1]> (<["n3" := Scenario.marked]> (<["n4" := bare]> ∅)).

Definition starting : Watcher Scenario.World :=
  New cluster Scenario.loggerOnly [].

(** A second live node that lacks the finalizer of this webhook, and the
    watcher of a cluster that holds it beside the nodes of [cluster]. *)
Definition claimed : Node := Scenario.live "n2" ["storage.example/protect"] ∅.

Definition startingTwo : Watcher Scenario.World :=
  New (<["n2" := claimed]> cluster) Scenario.loggerOnly [].

(** [n4] as the cluster holds it after another controller has put a
    finalizer of its own on it. *)
Definition bareClaimed : Node := Scenario.live "n4" ["storage.example/protect"] ∅.

(** A watcher whose goroutine for [bare] has not run yet, over a cluster
    that holds [bareClaimed]. *)
Definition addPending : Watcher Scenario.World :=
  setFinalizerAdds (New {["n4" := bareClaimed]} Scenario.loggerOnly []) [bare].

(** A plugin that fails as long as fewer than [k] calls were made. The
    world is the number of calls made. *)
Definition flaky (k : nat) : Plugin nat :=
  {| Name := "flaky";
     ShouldRun := λ _, true;
     Cleanup := λ _ n, (S n, if n <? k then Some (errorString "not yet") else None) |}.

Definition flakyOnly (k : nat) : Registry nat :=
  enableAll ["flaky"] (registerAll [flaky k] NewRegistry).

(** A watcher with a retry goroutine waiting for a node that is gone. *)
Definition retryForGone : Watcher Scenario.World :=
  setRetries (New ∅ Scenario.storageOnly []) ["n1"].

(** A decoder for two raw objects. *)
Definition decode (raw : string) : Node + error :=
  if String.eqb raw "bare" then inl bare
  else if String.eqb raw "marked" then inl Scenario.marked
  else inr (errorString "unexpected end of JSON input").

(** A trimming function for names without blanks. *)
Definition noTrim (s : string) : string := s.

Definition noAtoi (s : string) : option Z := None.
Definition noParseBool (s : string) : option bool := None.

End Examples.

(** * Facts about the registry *)

Section RegistryFacts.

Context {W : Type}.
Implicit Types (r : Registry W) (p : Plugin W) (node : Node) (w : W).

Lemma Enable_registered r name p :
  plugins r !! name = Some p →
  Enable name r =
    (mkRegistry (plugins r) (<[name := true]> (enabled r)) (pluginOrder r ++ [name]),
     None).
Proof. intros Hp. unfold Enable. by rewrite Hp. Qed.

Lemma Enable_unregistered r name :
  plugins r !! name = None → Enable name r = (r, Some (errPluginNotFound name)).
Proof. intros Hp. unfold Enable. by rewrite Hp. Qed.

Lemma Enable_plugins name r : plugins (Enable name r).1 = plugins r.
Proof. unfold Enable. by destruct (plugins r !! name). Qed.

Lemma enableAll_plugins names r : plugins (enableAll names r) = plugins r.
Proof.
  revert r. induction names as [|n names IH]; intros r; [done|].
  cbn. unfold enableAll in IH. rewrite IH. apply Enable_plugins.
Qed.

Lemma enableAll_order names r :
  Forall (λ n, is_Some (plugins r !! n)) names →
  pluginOrder (enableAll names r) = pluginOrder r ++ names.
Proof.
  revert r. induction names as [|n names IH]; intros r Hall.
  - cbn. by rewrite app_nil_r.
  - apply Forall_cons in Hall as [[p Hp] Hall]. cbn.
    rewrite (Enable_registered _ _ _ Hp). cbn.
    unfold enableAll in IH. rewrite IH; cbn.
    + by rewrite <- app_assoc.
    + done.
Qed.

Lemma enableAll_enabled names r n :
  Forall (λ n, is_Some (plugins r !! n)) names →
  n ∈ names → isEnabled (enableAll names r) n = true.
Proof.
  revert r. induction names as [|m names IH] using rev_ind; intros r Hall Hin.
  - by apply elem_of_nil in Hin.
  - apply Forall_app in Hall as [Hall Hm]. apply Forall_singleton in Hm as [p Hp].
    unfold enableAll. rewrite foldl_app. cbn.
    fold (enableAll names r).
    assert (plugins (enableAll names r) !! m = Some p) as Hp'
      by by rewrite enableAll_plugins.
    rewrite (Enable_registered _ _ _ Hp'). unfold isEnabled. cbn.
    destruct (decide (m = n)) as [->|Hne].
    + by rewrite lookup_insert_eq.
    + rewrite lookup_insert_ne by done.
      apply elem_of_app in Hin as [Hin|Hin].
      * by apply IH.
      * apply list_elem_of_singleton in Hin. congruence.
Qed.

Lemma registerAll_cons p ps r :
  registerAll (p :: ps) r = registerAll ps (Register p r).
Proof. done. Qed.

Lemma registerAll_order ps r : pluginOrder (registerAll ps r) = pluginOrder r.
Proof.
  revert r. induction ps as [|p ps IH]; intros r; [done|].
  rewrite registerAll_cons. by rewrite IH.
Qed.

Lemma Register_commute p q r :
  Name p ≠ Name q → Register p (Register q r) = Register q (Register p r).
Proof.
  intros Hne. unfold Register. cbn. f_equal. by apply insert_insert_ne.
Qed.

(** With one plugin per name, the registry does not depend on the order of
    the [Register] calls. *)
Lemma registerAll_Permutation ps ps' r :
  ps ≡ₚ ps' → NoDup (Name <$> ps) → registerAll ps r = registerAll ps' r.
Proof.
  intros Hperm. revert r.
  induction Hperm as [|x l l' Hperm IH|x y l|l l' l'' H1 IH1 H2 IH2]; intros r Hnd.
  - done.
  - rewrite !registerAll_cons. apply IH. by apply NoDup_cons in Hnd as [_ ?].
  - rewrite !registerAll_cons. f_equal.
    cbn in Hnd. apply NoDup_cons in Hnd as [Hnotin _].
    apply Register_commute. intros Heq. apply Hnotin. rewrite Heq. by left.
  - rewrite IH1 by done. apply IH2. by rewrite <- H1.
Qed.

Lemma RunAll_loop_plugins r r' node order w :
  plugins r = plugins r' → RunAll_loop r node order w = RunAll_loop r' node order w.
Proof.
  intros Heq. revert w. induction order as [|name rest IH]; intros w; [done|].
  cbn. rewrite Heq. destruct (plugins r' !! name) as [plugin|]; [|done].
  destruct (ShouldRun plugin node); cbn; [|done].
  destruct (Cleanup plugin node w) as [w' [err|]]; [done|]. by rewrite IH.
Qed.

(** Running a concatenated order: the first part, and the second part from
    where the first part left the world unless the first part failed. *)
Lemma RunAll_loop_app r node pre post w :
  RunAll_loop r node (pre ++ post) w =
    andThen (RunAll_loop r node pre w) (RunAll_loop r node post).
Proof.
  revert w. induction pre as [|name pre IH]; intros w.
  - cbn. unfold andThen. cbn. by destruct (RunAll_loop r node post w).
  - cbn. destruct (plugins r !! name) as [plugin|]; [|done].
    destruct (ShouldRun plugin node); cbn; [|done].
    destruct (Cleanup plugin node w) as [w' [err|]]; [done|].
    rewrite IH. unfold andThen. cbn.
    destruct (runErr (RunAll_loop r node pre w')) eqn:Herr; [by rewrite Herr|done].
Qed.

(** The returned error is [nil] exactly when no call failed. *)
Lemma RunAll_loop_success r node order w :
  runErr (RunAll_loop r node order w) = None ↔
  Forall (λ c, c.2 = None) (calls (RunAll_loop r node order w)).
Proof.
  revert w. induction order as [|name rest IH]; intros w; cbn.
  - split; [constructor|done].
  - destruct (plugins r !! name) as [plugin|]; [|done].
    destruct (ShouldRun plugin node); cbn; [|done].
    destruct (Cleanup plugin node w) as [w' [err|]]; cbn.
    + split; [done|]. intros Hall. by apply Forall_cons in Hall as [? _].
    + rewrite IH. split; [by constructor|]. intros Hall.
      by apply Forall_cons in Hall as [_ ?].
Qed.

(** A returned error comes from the last call, and every call before it
    returned [nil]. *)
Lemma RunAll_loop_failure r node order w e :
  runErr (RunAll_loop r node order w) = Some e →
  ∃ before name err,
    calls (RunAll_loop r node order w) = before ++ [(name, Some err)]
    ∧ Forall (λ c, c.2 = None) before
    ∧ e = errPluginFailed name err.
Proof.
  revert w. induction order as [|name rest IH]; intros w; cbn; [done|].
  destruct (plugins r !! name) as [plugin|]; [|by apply IH].
  destruct (ShouldRun plugin node); cbn; [|by apply IH].
  destruct (Cleanup plugin node w) as [w' [err|]]; cbn.
  - intros [= <-]. exists [], name, err. by repeat split.
  - intros He. destruct (IH _ He) as (before & n & err & Hc & Hall & ->).
    exists ((name, None) :: before), n, err. rewrite Hc.
    split; [done|]. split; [by constructor|done].
Qed.

(** The names called are taken from the order, in the order's order. *)
Lemma RunAll_loop_sublist r node order w :
  invoked (RunAll_loop r node order w) `sublist_of` order.
Proof.
  revert w. induction order as [|name rest IH]; intros w; cbn; [done|].
  unfold invoked in *.
  destruct (plugins r !! name) as [plugin|]; [|by apply sublist_cons].
  destruct (ShouldRun plugin node); cbn; [|by apply sublist_cons].
  destruct (Cleanup plugin node w) as [w' [err|]]; cbn.
  - apply sublist_skip, sublist_nil_l.
  - by apply sublist_skip.
Qed.

(** The earlier revision calls only plugins that are enabled. *)
Lemma RunAll_unordered_only_enabled r node iter w name :
  name ∈ invoked (RunAll_unordered_loop r node iter w) → isEnabled r name = true.
Proof.
  revert w. induction iter as [|n rest IH]; intros w; cbn.
  - intros Hin. by apply elem_of_nil in Hin.
  - destruct (plugins r !! n) as [plugin|]; [|by apply IH].
    destruct (isEnabled r n) eqn:Hen; cbn; [|by apply IH].
    destruct (ShouldRun plugin node); cbn; [|by apply IH].
    unfold invoked in *.
    destruct (Cleanup plugin node w) as [w' [err|]]; cbn.
    + intros Hin. apply list_elem_of_singleton in Hin. by subst.
    + intros Hin. apply elem_of_cons in Hin as [->|Hin]; [done|]. by eapply IH.
Qed.

End RegistryFacts.

(** * Specified behaviour of the registry *)

(** C1. When [a], [b] and [c] have been enabled in that order on a registry
    that holds a plugin for each, all three applicable to the node, [RunAll]
    walks exactly the order [a, b, c]: it applies the [Cleanup] of [a] to
    the world it was given, then the [Cleanup] of [b] to the world that left,
    then the [Cleanup] of [c] to the world that left, stopping after the
    first that fails; the calls, the world left behind and the returned
    error are those of this sequence. So the names it calls are an initial
    part of [a, b, c] in every case, and all of [a, b, c] when neither [a]
    nor [b] fails. The sequence of [Register] calls [ps] is arbitrary, and
    with one plugin per name any other order of the same registrations gives
    the same run. *)
Theorem runAll_follows_enable_order {W : Type} (ps : list (Plugin W))
    (a b c : string) (pa pb pc : Plugin W) (node : Node) (w : W) :
  plugins (registerAll ps NewRegistry) !! a = Some pa →
  plugins (registerAll ps NewRegistry) !! b = Some pb →
  plugins (registerAll ps NewRegistry) !! c = Some pc →
  ShouldRun pa node = true →
  ShouldRun pb node = true →
  ShouldRun pc node = true →
  pluginOrder (enableAll [a; b; c] (registerAll ps NewRegistry)) = [a; b; c]
  ∧ invoked (RunAll (enableAll [a; b; c] (registerAll ps NewRegistry)) node w)
      `prefix_of` [a; b; c]
  ∧ ((Cleanup pa node w).2 = None →
     (Cleanup pb node (Cleanup pa node w).1).2 = None →
     invoked (RunAll (enableAll [a; b; c] (registerAll ps NewRegistry)) node w)
       = [a; b; c])
  ∧ (∀ ps', ps' ≡ₚ ps → NoDup (Name <$> ps) →
     RunAll (enableAll [a; b; c] (registerAll ps' NewRegistry)) node w
       = RunAll (enableAll [a; b; c] (registerAll ps NewRegistry)) node w)
  ∧ RunAll (enableAll [a; b; c] (registerAll ps NewRegistry)) node w
    = match Cleanup pa node w with
      | (wa, Some ea) =>
          {| calls := [(a, Some ea)]; worldAfter := wa;
             runErr := Some (errPluginFailed a ea) |}
      | (wa, None) =>
          match Cleanup pb node wa with
          | (wb, Some eb) =>
              {| calls := [(a, None); (b, Some eb)]; worldAfter := wb;
                 runErr := Some (errPluginFailed b eb) |}
          | (wb, None) =>
              match Cleanup pc node wb with
              | (wc, res) =>
                  {| calls := [(a, None); (b, None); (c, res)]; worldAfter := wc;
                     runErr := errPluginFailed c <$> res |}
              end
          end
      end.
Proof.
  intros Ha Hb Hc Sa Sb Sc.
  assert (pluginOrder (enableAll [a; b; c] (registerAll ps NewRegistry)) = [a; b; c])
    as Horder.
  { rewrite enableAll_order; [by rewrite registerAll_order|].
    repeat constructor; by eexists. }
  assert (∀ ps', ps' ≡ₚ ps → NoDup (Name <$> ps) →
     RunAll (enableAll [a; b; c] (registerAll ps' NewRegistry)) node w
       = RunAll (enableAll [a; b; c] (registerAll ps NewRegistry)) node w) as Hany.
  { intros ps' Hperm Hnd.
    by rewrite (registerAll_Permutation ps ps' NewRegistry (symmetry Hperm) Hnd). }
  split; [done|].
  match goal with
  | |- ?A ∧ ?B ∧ ?C ∧ ?D =>
      cut (A ∧ B ∧ D); [intros (? & ? & ?); by repeat split|]
  end.
  clear Hany.
  unfold RunAll. rewrite Horder.
  rewrite (RunAll_loop_plugins _ (registerAll ps NewRegistry))
    by apply enableAll_plugins.
  cbn. rewrite Ha, Hb, Hc, Sa, Sb, Sc. cbn.
  unfold invoked.
  destruct (Cleanup pa node w) as [wa [ea|]]; cbn.
  { split; [by exists [b; c]|done]. }
  destruct (Cleanup pb node wa) as [wb [eb|]]; cbn.
  { split; [by exists [c]|done]. }
  destruct (Cleanup pc node wb) as [wc [ec|]]; cbn; (split; [by exists []|done]).
Qed.

Lemma runAll_follows_enable_order_witness :
  Scenario.threePlugins = [Scenario.notify; Scenario.logger; Scenario.drain]
  ∧ invoked (RunAll Scenario.threeEnabled Scenario.n1 [])
      = ["logger"; "drain"; "notify"]
  ∧ RunAll Scenario.threeEnabled Scenario.n1 []
      = {| calls := [("logger", None); ("drain", None); ("notify", None)];
           worldAfter := ["logger"; "drain"; "notify"];
           runErr := None |}.
Proof.
  split; [reflexivity|].
  destruct (runAll_follows_enable_order Scenario.threePlugins
              "logger" "drain" "notify"
              Scenario.logger Scenario.drain Scenario.notify Scenario.n1 [])
    as (_ & _ & Hall & _ & Hrun); [reflexivity..|].
  split; [apply Hall; reflexivity|].
  exact Hrun.
Defined.

(** C2, as the code has it. [RunAll] never reads [enabled]: disabling a name
    changes no run, and a plugin that was enabled and then disabled is
    called all the same. *)
Theorem runAll_ignores_Disable :
  (∀ (W : Type) (r : Registry W) (name : string) (node : Node) (w : W),
     RunAll (Disable name r) node w = RunAll r node w)
  ∧ isEnabled Scenario.loggerDisabled "logger" = false
  ∧ pluginOrder Scenario.loggerDisabled = ["logger"]
  ∧ calls (RunAll Scenario.loggerDisabled Scenario.n1 []) = [("logger", None)]
  ∧ worldAfter (RunAll Scenario.loggerDisabled Scenario.n1 []) = ["logger"].
Proof.
  split; [|by vm_compute].
  intros W r name node w. unfold RunAll. by apply RunAll_loop_plugins.
Qed.

(** C3. Fail-fast. If [RunAll] reaches [name] in the order without an
    earlier failure, [name] has a plugin that applies to the node and its
    [Cleanup] returns [err], then the run consists of the calls made before
    [name] and the failed call, nothing after it; the world is the one the
    failed call left; and the returned error carries the name in its text
    and wraps [err]. In general a returned error is the failure of the last
    call made, and [RunAll] returns [nil] exactly when no call it made
    failed. *)
Theorem runAll_fail_fast {W : Type} (r : Registry W) (node : Node) (w : W) :
  (∀ pre name post plugin w2 err,
     pluginOrder r = pre ++ name :: post →
     runErr (RunAll_loop r node pre w) = None →
     plugins r !! name = Some plugin →
     ShouldRun plugin node = true →
     Cleanup plugin node (worldAfter (RunAll_loop r node pre w)) = (w2, Some err) →
     RunAll r node w =
       {| calls := calls (RunAll_loop r node pre w) ++ [(name, Some err)];
          worldAfter := w2;
          runErr := Some (errPluginFailed name err) |}
     ∧ Unwrap (errPluginFailed name err) = Some err
     ∧ Error (errPluginFailed name err)
         = "plugin " +:+ name +:+ " failed: " +:+ Error err)
  ∧ (∀ e, runErr (RunAll r node w) = Some e →
       ∃ before name err,
         calls (RunAll r node w) = before ++ [(name, Some err)]
         ∧ Forall (λ c, c.2 = None) before
         ∧ e = errPluginFailed name err)
  ∧ (runErr (RunAll r node w) = None ↔
       Forall (λ c, c.2 = None) (calls (RunAll r node w))).
Proof.
  split; [|split].
  - intros pre name post plugin w2 err Horder Hpre Hp Hrun Hfail.
    split; [|done].
    unfold RunAll. rewrite Horder, RunAll_loop_app. unfold andThen.
    rewrite Hpre. cbn. by rewrite Hp, Hrun, Hfail.
  - intros e. apply RunAll_loop_failure.
  - apply RunAll_loop_success.
Qed.

Lemma runAll_fail_fast_witness :
  pluginOrder Scenario.failingSecond = ["drain"; "storage"; "notify"]
  ∧ RunAll Scenario.failingSecond Scenario.n1 [] =
      {| calls := [("drain", None);
                   ("storage", Some (errorString "decommission refused"))];
         worldAfter := ["drain"; "storage"];
         runErr := Some (errPluginFailed "storage"
                           (errorString "decommission refused")) |}.
Proof.
  split; [reflexivity|].
  destruct (runAll_fail_fast Scenario.failingSecond Scenario.n1 []) as (Hfail & _ & _).
  destruct (Hfail ["drain"] "storage" ["notify"] Scenario.storage
              ["drain"; "storage"] (errorString "decommission refused"))
    as (Hrun & _ & _); [reflexivity..|].
  exact Hrun.
Defined.

(** C9. [Enable] only checks that the name is registered: a second call for
    the same name succeeds as well and appends the name to the order once
    more. On a registry with nothing else in its order, whose plugin for the
    name applies to the node and succeeds the first time, [RunAll] then calls
    that plugin twice. *)
Theorem enable_twice_appends_twice {W : Type} (r : Registry W) (name : string)
    (p : Plugin W) (node : Node) (w w1 : W) :
  plugins r !! name = Some p →
  (Enable name r).2 = None
  ∧ (Enable name (Enable name r).1).2 = None
  ∧ pluginOrder (Enable name (Enable name r).1).1 = pluginOrder r ++ [name; name]
  ∧ (pluginOrder r = [] →
     ShouldRun p node = true →
     Cleanup p node w = (w1, None) →
     calls (RunAll (Enable name (Enable name r).1).1 node w)
       = [(name, None); (name, (Cleanup p node w1).2)]).
Proof.
  intros Hp.
  rewrite (Enable_registered _ _ _ Hp). cbn.
  rewrite (Enable_registered _ name p) by done. cbn.
  split; [done|]. split; [done|]. split; [by rewrite <- app_assoc|].
  intros Hnil Hrun Hok. unfold RunAll. cbn. rewrite Hnil. cbn.
  rewrite Hp, Hrun. cbn. rewrite Hok.
  by destruct (Cleanup p node w1) as [w2 [e|]].
Qed.

Lemma enable_twice_appends_twice_witness :
  pluginOrder (Enable "logger" (Enable "logger"
                 (Register Scenario.logger NewRegistry)).1).1
    = ["logger"; "logger"]
  ∧ calls (RunAll (Enable "logger" (Enable "logger"
                     (Register Scenario.logger NewRegistry)).1).1 Scenario.n1 [])
    = [("logger", None); ("logger", None)].
Proof.
  destruct (enable_twice_appends_twice (Register Scenario.logger NewRegistry)
              "logger" Scenario.logger Scenario.n1 [] ["logger"])
    as (_ & _ & Horder & Hcalls); [reflexivity|].
  split; [exact Horder|].
  apply Hcalls; reflexivity.
Defined.

(** * Facts about the watcher *)

Section WatcherFacts.

Context {W : Type}.
Implicit Types (w : Watcher W) (node : Node) (nodeName : string).

Lemma containsFinalizer_elem_of (fs : list string) (target : string) :
  containsFinalizer fs target = true ↔ target ∈ fs.
Proof.
  induction fs as [|f fs IH]; cbn.
  - split; [done|]. intros Hin. by apply elem_of_nil in Hin.
  - destruct (String.eqb_spec f target) as [->|Hne].
    + split; [intros _; by left|done].
    + rewrite IH. split; [by right|].
      intros Hin. apply elem_of_cons in Hin as [->|Hin]; done.
Qed.

Lemma containsFinalizer_false_filter (fs : list string) (target : string) :
  containsFinalizer fs target = false → filter (λ f, f = target) fs = [].
Proof.
  induction fs as [|f fs IH]; cbn [containsFinalizer]; [done|].
  destruct (String.eqb_spec f target) as [->|Hne]; [done|].
  intros Hc. rewrite filter_cons_False by done. by apply IH.
Qed.

Lemma removeFinalizer_loop_filter (fs acc : list string) :
  removeFinalizer_loop fs acc = acc ++ filter (λ f, f ≠ FinalizerName) fs.
Proof.
  revert acc. induction fs as [|f fs IH]; intros acc; cbn [removeFinalizer_loop].
  - by rewrite app_nil_r.
  - destruct (String.eqb_spec f FinalizerName) as [->|Hne]; cbn [negb].
    + rewrite IH. by rewrite filter_cons_False by (intros ?; done).
    + rewrite IH. rewrite filter_cons_True by done. by rewrite <- app_assoc.
Qed.

Lemma removeFinalizer_list_filter node :
  removeFinalizer_list node = filter (λ f, f ≠ FinalizerName) (Finalizers node).
Proof. unfold removeFinalizer_list. by rewrite removeFinalizer_loop_filter. Qed.

(** What a patch request leaves alone. *)
Lemma PatchNode_frame w nodeName fs :
  patches (PatchNode w nodeName fs).1 = patches w ++ [mkPatch nodeName fs]
  ∧ workqueue (PatchNode w nodeName fs).1 = workqueue w
  ∧ processing (PatchNode w nodeName fs).1 = processing w
  ∧ active (PatchNode w nodeName fs).1 = active w
  ∧ finalizerAdds (PatchNode w nodeName fs).1 = finalizerAdds w
  ∧ retries (PatchNode w nodeName fs).1 = retries w
  ∧ world (PatchNode w nodeName fs).1 = world w
  ∧ cleanupCalls (PatchNode w nodeName fs).1 = cleanupCalls w.
Proof. unfold PatchNode. by destruct (client w !! nodeName). Qed.

Lemma removeFinalizer_PatchNode w node :
  (removeFinalizer w node).1
    = (PatchNode w (node_Name node) (removeFinalizer_list node)).1.
Proof.
  unfold removeFinalizer.
  by destruct (PatchNode w (node_Name node) (removeFinalizer_list node)) as [? [?|]].
Qed.

Lemma addFinalizer_PatchNode w node :
  (addFinalizer w node).1
    = (PatchNode w (node_Name node) (addFinalizer_list node)).1.
Proof.
  unfold addFinalizer.
  by destruct (PatchNode w (node_Name node) (addFinalizer_list node)) as [? [?|]].
Qed.

(** [processNode] touches the in-flight set only by releasing its name,
    and touches neither the queue nor the consumer. *)
Lemma processNode_frame w nodeName :
  workqueue (processNode w nodeName) = workqueue w
  ∧ processing (processNode w nodeName) = processing w ∖ {[nodeName]}
  ∧ active (processNode w nodeName) = active w.
Proof.
  unfold processNode.
  destruct (Get w nodeName) as [node|]; [|done].
  destruct (bool_decide (DeletionTimestamp node = None)
            || negb (containsFinalizer (Finalizers node) FinalizerName)); [done|].
  destruct (String.eqb (annotation node SkipCleanupAnnotation) "true").
  { rewrite removeFinalizer_PatchNode.
    destruct (PatchNode_frame w (node_Name node) (removeFinalizer_list node))
      as (_ & Hq & Hp & Ha & _).
    cbn. by rewrite Hq, Hp, Ha. }
  unfold runCleanup.
  destruct (runErr (RunAll (pluginRegistry w) node (world w))); [done|].
  match goal with |- context [Get ?w1 nodeName] => destruct (Get w1 nodeName) as [node'|] end;
    [|done].
  rewrite removeFinalizer_PatchNode.
  match goal with |- context [PatchNode ?w1 ?n ?fs] =>
    destruct (PatchNode_frame w1 n fs) as (_ & Hq & Hp & Ha & _) end.
  cbn. by rewrite Hq, Hp, Ha.
Qed.

Lemma ensureFinalizer_frame w node :
  workqueue (ensureFinalizer w node) = workqueue w
  ∧ processing (ensureFinalizer w node) = processing w
  ∧ active (ensureFinalizer w node) = active w
  ∧ patches (ensureFinalizer w node) = patches w
  ∧ client (ensureFinalizer w node) = client w.
Proof.
  unfold ensureFinalizer.
  destruct (bool_decide (DeletionTimestamp node ≠ None)); [done|].
  by destruct (containsFinalizer (Finalizers node) FinalizerName).
Qed.

Lemma inflightInv_ext w w' :
  workqueue w' = workqueue w → processing w' = processing w → active w' = active w →
  inflightInv w → inflightInv w'.
Proof. unfold inflightInv. by intros -> -> ->. Qed.

Lemma New_inflightInv (nodes : gmap string Node) (r : Registry W) (x : W) :
  inflightInv (New nodes r x).
Proof.
  unfold inflightInv. cbn. split; [constructor|]. split; [done|].
  intros n. split; [intros Hin; by apply not_elem_of_empty in Hin|].
  intros [Hin|?]; [by apply elem_of_nil in Hin|done].
Qed.

Lemma enqueueIfDeleting_inflightInv w node :
  inflightInv w → inflightInv (enqueueIfDeleting w node).
Proof.
  intros (Hnd & Hact & Hiff). unfold enqueueIfDeleting.
  destruct (bool_decide (DeletionTimestamp node = None)); [done|].
  destruct (containsFinalizer (Finalizers node) FinalizerName); cbn; [|done].
  unfold LoadOrStore. destruct (decide (node_Name node ∈ processing w)) as [Hin|Hnotin];
    [done|].
  assert (node_Name node ∉ workqueue w) as Hq by (intros ?; apply Hnotin, Hiff; by left).
  assert (active w ≠ Some (node_Name node)) as Ha
    by (intros ?; apply Hnotin, Hiff; by right).
  unfold inflightInv. cbn. split; [|split].
  - apply NoDup_app. split; [done|]. split; [|apply NoDup_singleton].
    intros x Hx Hx'. apply list_elem_of_singleton in Hx'. by subst.
  - intros n Hn Hin. apply elem_of_app in Hin as [Hin|Hin]; [by eapply Hact|].
    apply list_elem_of_singleton in Hin. by subst.
  - intros n. rewrite elem_of_union, elem_of_singleton, elem_of_app,
      list_elem_of_singleton, Hiff. tauto.
Qed.

(** Every transition that is not a step of the retry goroutine keeps the
    in-flight set exact. *)
Lemma step_keeps_inflightInv w l w' :
  isRetry l = false → step w l = Some w' → inflightInv w → inflightInv w'.
Proof.
  intros Hl Hstep Hinv. destruct l as [node|node|nodes| | | |n|n]; cbn in Hstep;
    try discriminate Hl.
  - injection Hstep as <-.
    destruct (ensureFinalizer_frame w node) as (? & ? & ? & _).
    by eapply inflightInv_ext.
  - destruct (canEnqueue (ensureFinalizer w node) node); [|done].
    injection Hstep as <-. apply enqueueIfDeleting_inflightInv.
    destruct (ensureFinalizer_frame w node) as (? & ? & ? & _).
    by eapply inflightInv_ext.
  - by injection Hstep as <-.
  - destruct (finalizerAdds w) as [|node rest]; [done|].
    injection Hstep as <-. rewrite addFinalizer_PatchNode.
    match goal with |- context [PatchNode ?w1 ?n ?fs] =>
      destruct (PatchNode_frame w1 n fs) as (_ & Hq & Hp & Ha & _) end.
    by eapply inflightInv_ext.
  - destruct Hinv as (Hnd & Hact & Hiff).
    destruct (active w) as [a|] eqn:Hactive; [done|].
    destruct (workqueue w) as [|n rest] eqn:Hqueue; [done|].
    injection Hstep as <-. unfold inflightInv. cbn.
    apply NoDup_cons in Hnd as [Hn Hnd].
    split; [done|]. split; [by intros ? [= <-]|].
    intros x. rewrite Hiff, elem_of_cons.
    split; [intros [[->|?]|?]; by auto|]. intros [?|[= ->]]; auto.
  - destruct (active w) as [n|] eqn:Hactive; [|done].
    injection Hstep as <-.
    destruct (processNode_frame w n) as (Hq & Hp & _).
    destruct Hinv as (Hnd & Hact & Hiff).
    unfold inflightInv. cbn. rewrite Hq, Hp.
    split; [done|]. split; [done|].
    intros x. rewrite elem_of_difference, elem_of_singleton, Hiff.
    split.
    + intros [[?|Hax] Hne]; [by left|]. congruence.
    + intros [Hin|?]; [|done]. split; [by left|].
      intros ->. by eapply Hact.
Qed.

Lemma run_keeps_inflightInv w ls w' :
  Forall (λ l, isRetry l = false) ls → run w ls = Some w' →
  inflightInv w → inflightInv w'.
Proof.
  revert w. induction ls as [|l ls IH]; intros w Hall Hrun Hinv; cbn in Hrun.
  - by injection Hrun as <-.
  - apply Forall_cons in Hall as [Hl Hall].
    destruct (step w l) as [w1|] eqn:Hstep; [|done].
    eapply IH; [done..|]. by eapply step_keeps_inflightInv.
Qed.

Lemma filter_eq_length_elem_of (l : list string) (x : string) :
  0 < length (filter (λ y, y = x) l) ↔ x ∈ l.
Proof.
  induction l as [|y l IH].
  - cbn. split; [lia|]. intros Hin. by apply elem_of_nil in Hin.
  - destruct (decide (y = x)) as [->|Hne].
    + rewrite filter_cons_True by done. cbn. split; [intros _; by left|lia].
    + rewrite filter_cons_False by done. rewrite IH, elem_of_cons.
      split; [by right|]. intros [Heq|?]; [congruence|done].
Qed.

Lemma filter_eq_length_NoDup (l : list string) (x : string) :
  NoDup l → length (filter (λ y, y = x) l) ≤ 1.
Proof.
  induction l as [|y l IH]; intros Hnd; [cbn; lia|].
  apply NoDup_cons in Hnd as [Hy Hnd].
  destruct (decide (y = x)) as [->|Hne].
  - rewrite filter_cons_True by done. cbn.
    destruct (filter (λ y, y = x) l) as [|z zs] eqn:Hf; [cbn; lia|].
    exfalso. apply Hy, filter_eq_length_elem_of. rewrite Hf. cbn. lia.
  - rewrite filter_cons_False by done. by apply IH.
Qed.

(** The invariant gives the two properties the in-flight set is there for. *)
Lemma inflightInv_spec w : inflightInv w → inflightExact w ∧ atMostOneAttempt w.
Proof.
  intros (Hnd & Hact & Hiff). split.
  - intros n. rewrite Hiff. unfold attempts.
    rewrite <- filter_eq_length_elem_of. case_bool_decide; split; try lia; try tauto.
    intros [?|?]; [lia|done].
  - intros n. unfold attempts.
    pose proof (filter_eq_length_NoDup (workqueue w) n Hnd) as Hle.
    case_bool_decide as Ha; [|lia].
    assert (¬ 0 < length (filter (λ y, y = n) (workqueue w))); [|lia].
    rewrite filter_eq_length_elem_of. by apply Hact.
Qed.

(** As long as no retry goroutine has run, the in-flight set of a watcher
    started by [New] is exact and no name has two attempts. *)
Lemma inflight_set_exact_without_retries (nodes : gmap string Node)
    (r : Registry W) (x : W) (ls : list Label) w :
  Forall (λ l, isRetry l = false) ls →
  run (New nodes r x) ls = Some w →
  inflightExact w ∧ atMostOneAttempt w.
Proof.
  intros Hall Hrun. apply inflightInv_spec.
  eapply run_keeps_inflightInv; [done..|]. apply New_inflightInv.
Qed.

End WatcherFacts.

(** * Specified behaviour of the watcher *)

(** C4, as the code has it. The retry goroutine deletes the name from the
    in-flight set although [processNode] has already released it, so it can
    take away the entry of a later attempt. From a fresh watcher whose
    cleanup of [n1] fails: when the retry timer fires while a second
    attempt for [n1] is running, [n1] is queued again next to the attempt
    that is active; when that attempt ends, [n1] is queued without being in
    the set; and the next update event queues [n1] a second time. *)
Theorem retry_breaks_inflight_set :
  (∃ w, run Scenario.stuck Scenario.retryDuringAttempt = Some w
        ∧ active w = Some "n1" ∧ workqueue w = ["n1"]
        ∧ attempts w "n1" = 2 ∧ (¬ atMostOneAttempt w))
  ∧ (∃ w, run Scenario.stuck Scenario.attemptEnds = Some w
          ∧ workqueue w = ["n1"] ∧ ("n1" ∉ processing w)
          ∧ (¬ inflightExact w))
  ∧ (∃ w, run Scenario.stuck Scenario.thirdUpdate = Some w
          ∧ active w = None ∧ workqueue w = ["n1"; "n1"]
          ∧ attempts w "n1" = 2 ∧ (¬ atMostOneAttempt w)).
Proof.
  split; [|split].
  - eexists. split; [by vm_compute|].
    split; [done|]. split; [done|]. split; [by vm_compute|].
    intros Hone. specialize (Hone "n1"). vm_compute in Hone. lia.
  - eexists. split; [by vm_compute|].
    split; [done|]. split; [by vm_compute|].
    intros Hexact. specialize (Hexact "n1"). destruct Hexact as [_ Hin].
    assert ("n1" ∈ (∅ : gset string)) as Hbad by (apply Hin; vm_compute; lia).
    by apply not_elem_of_empty in Hbad.
  - eexists. split; [by vm_compute|].
    split; [done|]. split; [done|]. split; [by vm_compute|].
    intros Hone. specialize (Hone "n1"). vm_compute in Hone. lia.
Qed.

(** C5, as stated, fails twice over: a node whose skip annotation has the
    value ["yes"] gets its cleanup run, and a node whose skip annotation is
    ["true"] but whose deletion was not requested gets no patch. *)
Lemma skip_annotation_presence_is_not_enough :
  (Get (Scenario.watching Scenario.skipYes Scenario.loggerOnly) "n1"
     = Some Scenario.skipYes
   ∧ Annotations Scenario.skipYes !! SkipCleanupAnnotation = Some "yes"
   ∧ cleanupCalls (processNode (Scenario.watching Scenario.skipYes Scenario.loggerOnly) "n1")
     = ["logger"])
  ∧ (Get (Scenario.watching Scenario.skipTrueLive Scenario.loggerOnly) "n2"
       = Some Scenario.skipTrueLive
     ∧ Annotations Scenario.skipTrueLive !! SkipCleanupAnnotation = Some "true"
     ∧ patches (processNode (Scenario.watching Scenario.skipTrueLive Scenario.loggerOnly) "n2")
       = []).
Proof. by vm_compute. Qed.

(** C5, amended. When the node that [processNode] fetches is pending
    deletion, still carries the finalizer and has the skip annotation set to
    exactly ["true"], no cleanup operation is called and the world is left
    as it was, no retry is started, the one patch that is sent takes exactly
    the finalizer out of the node's list, and the name is released. *)
Theorem skip_annotation_bypasses_cleanup {W : Type} (w : Watcher W)
    (nodeName : string) (node : Node) :
  Get w nodeName = Some node →
  DeletionTimestamp node ≠ None →
  containsFinalizer (Finalizers node) FinalizerName = true →
  Annotations node !! SkipCleanupAnnotation = Some "true" →
  cleanupCalls (processNode w nodeName) = cleanupCalls w
  ∧ world (processNode w nodeName) = world w
  ∧ retries (processNode w nodeName) = retries w
  ∧ patches (processNode w nodeName)
      = patches w ++ [mkPatch (node_Name node)
                        (filter (λ f, f ≠ FinalizerName) (Finalizers node))]
  ∧ nodeName ∉ processing (processNode w nodeName).
Proof.
  intros Hget Hdel Hfin Hskip.
  destruct (processNode_frame w nodeName) as (_ & Hproc & _).
  assert (nodeName ∉ processing (processNode w nodeName)) as Hrel.
  { rewrite Hproc. rewrite elem_of_difference, elem_of_singleton. tauto. }
  revert Hrel. unfold processNode. rewrite Hget.
  rewrite bool_decide_eq_false_2 by done. rewrite Hfin. cbn [negb orb].
  unfold annotation. rewrite Hskip. cbn [default String.eqb Ascii.eqb Bool.eqb].
  rewrite removeFinalizer_PatchNode, removeFinalizer_list_filter.
  match goal with |- context [PatchNode ?w1 ?n ?fs] =>
    destruct (PatchNode_frame w1 n fs) as (Hp & _ & _ & _ & _ & Hr & Hw & Hc) end.
  intros Hrel. cbn. by rewrite Hp, Hr, Hw, Hc.
Qed.

Lemma skip_annotation_bypasses_cleanup_witness :
  cleanupCalls (processNode (Scenario.watching Scenario.skipTrue Scenario.loggerOnly) "n1")
    = []
  ∧ patches (processNode (Scenario.watching Scenario.skipTrue Scenario.loggerOnly) "n1")
    = [mkPatch "n1" ["other"]].
Proof.
  destruct (skip_annotation_bypasses_cleanup
              (Scenario.watching Scenario.skipTrue Scenario.loggerOnly)
              "n1" Scenario.skipTrue)
    as (Hcalls & _ & _ & Hpatches & _); [reflexivity|discriminate|reflexivity..|].
  split; [exact Hcalls|exact Hpatches].
Defined.

(** C6. The patch that [removeFinalizer] sends carries the node's finalizers
    with every occurrence of the finalizer of this webhook left out and all
    others kept in their order; for a node with the list [other, finalizer]
    it carries exactly [other]. Sent for a node the cluster has, the patch
    is accepted and the node is left with that list. *)
Theorem removeFinalizer_removes_only_the_marker {W : Type} (w : Watcher W)
    (node : Node) (other : string) :
  other ≠ FinalizerName →
  Finalizers node = [other; FinalizerName] →
  removeFinalizer_list node = [other]
  ∧ patches (removeFinalizer w node).1
      = patches w ++ [mkPatch (node_Name node) [other]]
  ∧ (∀ stored, client w !! node_Name node = Some stored →
       (removeFinalizer w node).2 = None
       ∧ client (removeFinalizer w node).1 !! node_Name node
           = Some (setFinalizers stored [other]))
  ∧ (∀ node' : Node,
       removeFinalizer_list node'
         = filter (λ f, f ≠ FinalizerName) (Finalizers node')).
Proof.
  intros Hother Hfs.
  assert (removeFinalizer_list node = [other]) as Hlist.
  { rewrite removeFinalizer_list_filter, Hfs.
    rewrite filter_cons_True by done. by rewrite filter_cons_False by (intros ?; done). }
  split; [done|]. split; [|split].
  - rewrite removeFinalizer_PatchNode, Hlist.
    by destruct (PatchNode_frame w (node_Name node) [other]) as (-> & _).
  - intros stored Hstored. unfold removeFinalizer, PatchNode.
    rewrite Hlist, Hstored. cbn. by rewrite lookup_insert_eq.
  - apply removeFinalizer_list_filter.
Qed.

Lemma removeFinalizer_removes_only_the_marker_witness :
  Finalizers Scenario.n1 = ["other"; FinalizerName]
  ∧ patches (removeFinalizer (Scenario.watching Scenario.n1 Scenario.loggerOnly)
               Scenario.n1).1
    = [mkPatch "n1" ["other"]].
Proof.
  split; [reflexivity|].
  destruct (removeFinalizer_removes_only_the_marker
              (Scenario.watching Scenario.n1 Scenario.loggerOnly) Scenario.n1 "other")
    as (_ & Hpatch & _); [discriminate|reflexivity|].
  exact Hpatch.
Defined.

(** C7. For a node that already carries the finalizer, [ensureFinalizer]
    does nothing at all: it starts no goroutine, so no patch is built or
    sent and no error can arise, and the add and update callbacks leave the
    watcher as it is as far as finalizers go. When [ensureFinalizer] does
    start a goroutine, the list that [addFinalizer] will put in the patch
    holds the finalizer exactly once. *)
Theorem ensureFinalizer_present_is_noop {W : Type} (w : Watcher W) (node : Node) :
  containsFinalizer (Finalizers node) FinalizerName = true →
  ensureFinalizer w node = w
  ∧ step w (LAdd node) = Some w
  ∧ finalizerAdds (ensureFinalizer w node) = finalizerAdds w
  ∧ patches (ensureFinalizer w node) = patches w
  ∧ (∀ node' : Node,
       ensureFinalizer w node' = w
       ∨ (ensureFinalizer w node' = setFinalizerAdds w (finalizerAdds w ++ [node'])
          ∧ length (filter (λ f, f = FinalizerName) (addFinalizer_list node')) = 1)).
Proof.
  intros Hfin.
  assert (ensureFinalizer w node = w) as Hnoop.
  { unfold ensureFinalizer. rewrite Hfin. by case_bool_decide. }
  split; [done|]. split; [by cbn; rewrite Hnoop|].
  rewrite Hnoop. split; [done|]. split; [done|].
  intros node'. unfold ensureFinalizer. case_bool_decide; [by left|].
  destruct (containsFinalizer (Finalizers node') FinalizerName) eqn:Hc; [by left|].
  right. split; [done|].
  unfold addFinalizer_list. cbn [app]. rewrite filter_app, length_app.
  rewrite filter_cons_True by done. cbn.
  by rewrite containsFinalizer_false_filter.
Qed.

Lemma ensureFinalizer_present_is_noop_witness :
  containsFinalizer (Finalizers Scenario.marked) FinalizerName = true
  ∧ ensureFinalizer (Scenario.watching Scenario.marked Scenario.loggerOnly) Scenario.marked
    = Scenario.watching Scenario.marked Scenario.loggerOnly.
Proof.
  split; [reflexivity|].
  destruct (ensureFinalizer_present_is_noop
              (Scenario.watching Scenario.marked Scenario.loggerOnly) Scenario.marked)
    as (Hnoop & _); [reflexivity|].
  exact Hnoop.
Defined.

(** C8. When the node that [processNode] fetches is not pending deletion,
    or no longer carries the finalizer, [processNode] only releases the
    name: no cleanup operation is called, the world is as before, no patch
    is sent, no retry is started, and the cluster, the queue and every other
    part of the watcher are unchanged. *)
Theorem processNode_abandons_stale_work {W : Type} (w : Watcher W)
    (nodeName : string) (node : Node) :
  Get w nodeName = Some node →
  DeletionTimestamp node = None
    ∨ containsFinalizer (Finalizers node) FinalizerName = false →
  processNode w nodeName = setProcessing w (processing w ∖ {[nodeName]})
  ∧ cleanupCalls (processNode w nodeName) = cleanupCalls w
  ∧ world (processNode w nodeName) = world w
  ∧ patches (processNode w nodeName) = patches w
  ∧ retries (processNode w nodeName) = retries w
  ∧ client (processNode w nodeName) = client w
  ∧ workqueue (processNode w nodeName) = workqueue w
  ∧ finalizerAdds (processNode w nodeName) = finalizerAdds w
  ∧ nodeName ∉ processing (processNode w nodeName).
Proof.
  intros Hget Hstale.
  assert (processNode w nodeName = setProcessing w (processing w ∖ {[nodeName]}))
    as ->.
  { unfold processNode. rewrite Hget.
    destruct Hstale as [Hdel|Hfin].
    - by rewrite bool_decide_eq_true_2.
    - rewrite Hfin. cbn [negb]. by rewrite orb_true_r. }
  cbn. repeat (split; [done|]).
  rewrite elem_of_difference, elem_of_singleton. tauto.
Qed.

Lemma processNode_abandons_stale_work_witness :
  Get Scenario.staleReceived "n1" = Some Scenario.n1Released
  ∧ processNode Scenario.staleReceived "n1"
    = setProcessing Scenario.staleReceived (processing Scenario.staleReceived ∖ {["n1"]}).
Proof.
  split; [reflexivity|].
  destruct (processNode_abandons_stale_work Scenario.staleReceived "n1"
              Scenario.n1Released)
    as (Hsame & _); [reflexivity|right; reflexivity|].
  exact Hsame.
Defined.

(** C10. The skip check compares the annotation with ["true"]. For a node
    that [processNode] fetches pending deletion and with the finalizer, and
    whose skip annotation has any other value (or is absent), [processNode]
    runs [RunAll] on the node: the cleanup calls it makes are those of
    [RunAll], and the world is the one [RunAll] leaves. *)
Theorem skip_requires_the_value_true {W : Type} (w : Watcher W)
    (nodeName : string) (node : Node) :
  Get w nodeName = Some node →
  DeletionTimestamp node ≠ None →
  containsFinalizer (Finalizers node) FinalizerName = true →
  annotation node SkipCleanupAnnotation ≠ "true" →
  cleanupCalls (processNode w nodeName)
    = cleanupCalls w ++ invoked (RunAll (pluginRegistry w) node (world w))
  ∧ world (processNode w nodeName)
    = worldAfter (RunAll (pluginRegistry w) node (world w)).
Proof.
  intros Hget Hdel Hfin Hskip.
  unfold processNode. rewrite Hget.
  rewrite bool_decide_eq_false_2 by done. rewrite Hfin. cbn [negb orb].
  destruct (String.eqb_spec (annotation node SkipCleanupAnnotation) "true"); [done|].
  unfold runCleanup.
  destruct (runErr (RunAll (pluginRegistry w) node (world w))); [done|].
  match goal with |- context [Get ?w1 nodeName] =>
    destruct (Get w1 nodeName) as [node'|] end; [|done].
  rewrite removeFinalizer_PatchNode.
  match goal with |- context [PatchNode ?w1 ?n ?fs] =>
    destruct (PatchNode_frame w1 n fs) as (_ & _ & _ & _ & _ & _ & Hw & Hc) end.
  cbn. by rewrite Hw, Hc.
Qed.

Lemma skip_requires_the_value_true_witness :
  annotation Scenario.skipYes SkipCleanupAnnotation = "yes"
  ∧ cleanupCalls (processNode (Scenario.watching Scenario.skipYes Scenario.loggerOnly) "n1")
    = ["logger"].
Proof.
  split; [reflexivity|].
  destruct (skip_requires_the_value_true
              (Scenario.watching Scenario.skipYes Scenario.loggerOnly)
              "n1" Scenario.skipYes)
    as (Hcalls & _); [reflexivity|discriminate|reflexivity|discriminate|].
  exact Hcalls.
Defined.

(** * Further behaviour of the registry *)

Section RegistryMore.

Context {W : Type}.
Implicit Types (r : Registry W) (node : Node) (w : W).

Lemma enableAll_cons name names r :
  enableAll (name :: names) r = enableAll names (Enable name r).1.
Proof. done. Qed.

Lemma enableAll_order_filter names r :
  pluginOrder (enableAll names r)
    = pluginOrder r ++ filter (λ n, is_Some (plugins r !! n)) names.
Proof.
  revert r. induction names as [|n names IH]; intros r.
  - cbn. by rewrite app_nil_r.
  - rewrite enableAll_cons, IH.
    assert (filter (λ m, is_Some (plugins (Enable n r).1 !! m)) names
            = filter (λ m, is_Some (plugins r !! m)) names) as ->.
    { apply list_filter_iff. intros m. by rewrite Enable_plugins. }
    destruct (plugins r !! n) as [p|] eqn:Hp.
    + rewrite filter_cons_True by (by rewrite Hp).
      rewrite (Enable_registered _ _ _ Hp). cbn [fst pluginOrder].
      by rewrite <- app_assoc.
    + rewrite filter_cons_False by (rewrite Hp; by intros [? ?]).
      by rewrite (Enable_unregistered _ _ Hp).
Qed.

Lemma applyOps_snoc (ops : list (RegistryOp W)) (op : RegistryOp W) r :
  applyOps (ops ++ [op]) r = applyOp (applyOps ops r) op.
Proof. unfold applyOps. by rewrite foldl_app. Qed.

(** The calls of a run are an initial part of the applicable names of the
    order, and all of them when the run succeeds. *)
Lemma RunAll_loop_applicable r node order w :
  invoked (RunAll_loop r node order w)
    `prefix_of` filter (λ name, applicable r node name = true) order
  ∧ (runErr (RunAll_loop r node order w) = None →
     invoked (RunAll_loop r node order w)
       = filter (λ name, applicable r node name = true) order).
Proof.
  revert w. unfold invoked, applicable.
  induction order as [|name rest IH]; intros w; cbn [RunAll_loop].
  - split; [by exists []|done].
  - destruct (plugins r !! name) as [plugin|] eqn:Hp.
    2:{ rewrite filter_cons_False by (by rewrite Hp). apply IH. }
    destruct (ShouldRun plugin node) eqn:Hrun; cbn [negb].
    2:{ rewrite filter_cons_False by (rewrite Hp, Hrun; done). apply IH. }
    rewrite filter_cons_True by (by rewrite Hp, Hrun).
    destruct (Cleanup plugin node w) as [w' [err|]]; cbn.
    + split; [|done]. by eexists.
    + destruct (IH w') as [Hpre Heq]. split.
      * by apply prefix_cons.
      * intros Hok. by rewrite Heq.
Qed.

End RegistryMore.

(** X1. [Enable] fails exactly for a name that has no plugin, with the
    error "plugin <name> not found", and then leaves the registry as it
    was. Enabling a list of names one after the other, as [main] does,
    therefore appends to the order exactly the names of the list that are
    registered, in the order of the list, and registers nothing. *)
Theorem enabling_passes_over_unregistered_names {W : Type} (r : Registry W)
    (names : list string) :
  (∀ name, (Enable name r).2 = None ↔ is_Some (plugins r !! name))
  ∧ (∀ name, plugins r !! name = None →
       Enable name r = (r, Some (errorString ("plugin " +:+ name +:+ " not found"))))
  ∧ pluginOrder (enableAll names r)
      = pluginOrder r ++ filter (λ n, is_Some (plugins r !! n)) names
  ∧ plugins (enableAll names r) = plugins r.
Proof.
  split; [|split; [|split]].
  - intros name. unfold Enable. destruct (plugins r !! name) as [p|]; cbn.
    + split; [by eexists|done].
    + split; [done|]. by intros [? ?].
  - intros name Hp. by rewrite (Enable_unregistered _ _ Hp).
  - apply enableAll_order_filter.
  - apply enableAll_plugins.
Qed.

(** X2. Whatever sequence of [Register], [Enable] and [Disable] calls built
    a registry, every name in its order has a plugin, so the branch of
    [RunAll] for a missing plugin is never taken; every name that is enabled
    is in the order; and if [Disable] was never called every name in the
    order is enabled. *)
Theorem order_holds_registered_names {W : Type} (ops : list (RegistryOp W)) :
  Forall (λ name, is_Some (plugins (applyOps ops NewRegistry) !! name))
    (pluginOrder (applyOps ops NewRegistry))
  ∧ (∀ name, isEnabled (applyOps ops NewRegistry) name = true →
       name ∈ pluginOrder (applyOps ops NewRegistry))
  ∧ (Forall (λ op, ∀ name, op ≠ OpDisable name) ops →
     Forall (λ name, isEnabled (applyOps ops NewRegistry) name = true)
       (pluginOrder (applyOps ops NewRegistry))).
Proof.
  induction ops as [|op ops IH] using rev_ind.
  - cbn. split; [constructor|]. split; [|constructor].
    intros name. unfold isEnabled. cbn. by rewrite lookup_empty.
  - rewrite applyOps_snoc. set (r := applyOps ops NewRegistry) in *.
    destruct IH as (Hreg & Hen & Hall).
    destruct op as [plugin|n|n]; cbn [applyOp].
    + (* Register *)
      split; [|split].
      * cbn. eapply Forall_impl; [exact Hreg|]. intros name [p Hp]. cbn in *.
        destruct (decide (Name plugin = name)) as [<-|Hne].
        -- rewrite lookup_insert_eq. by eexists.
        -- rewrite lookup_insert_ne by done. by eexists.
      * exact Hen.
      * intros Hno. apply Forall_app in Hno as [Hno _]. by apply Hall.
    + (* Enable *)
      unfold Enable. destruct (plugins r !! n) as [p|] eqn:Hp; cbn.
      * split; [|split].
        -- apply Forall_app. split; [done|]. apply Forall_singleton. by eexists.
        -- intros name. unfold isEnabled. cbn.
           destruct (decide (n = name)) as [->|Hne].
           ++ intros _. apply elem_of_app. right. by apply list_elem_of_singleton.
           ++ rewrite lookup_insert_ne by done. intros H.
              apply elem_of_app. left. by apply Hen.
        -- intros Hno. apply Forall_app in Hno as [Hno _].
           apply Forall_app. split.
           ++ eapply Forall_impl; [by apply Hall|]. intros name. cbn.
              unfold isEnabled. cbn. destruct (decide (n = name)) as [->|Hne].
              ** by rewrite lookup_insert_eq.
              ** by rewrite lookup_insert_ne.
           ++ apply Forall_singleton. unfold isEnabled. cbn.
              by rewrite lookup_insert_eq.
      * split; [done|]. split; [done|].
        intros Hno. apply Forall_app in Hno as [Hno _]. by apply Hall.
    + (* Disable *)
      split; [done|]. split.
      * intros name. unfold isEnabled. cbn.
        destruct (decide (n = name)) as [->|Hne].
        -- by rewrite lookup_insert_eq.
        -- rewrite lookup_insert_ne by done. apply Hen.
      * intros Hno. apply Forall_app in Hno as [_ Hno].
        apply (proj1 (Forall_singleton _ _)) in Hno. by destruct (Hno n).
Qed.

Lemma RunAll_loop_replays {W : Type} (r : Registry W) (node : Node)
    (order : list string) (w : W) :
  replays r node (calls (RunAll_loop r node order w)) w
    (worldAfter (RunAll_loop r node order w)).
Proof.
  revert w. induction order as [|name rest IH]; intros w; cbn [RunAll_loop]; [done|].
  destruct (plugins r !! name) as [plugin|] eqn:Hp; [|apply IH].
  destruct (ShouldRun plugin node) eqn:Hrun; cbn [negb]; [|apply IH].
  destruct (Cleanup plugin node w) as [w' [err|]] eqn:Hc; cbn.
  - exists plugin. by rewrite Hc.
  - exists plugin. rewrite Hc. cbn. repeat split; try done; try apply IH.
Qed.

(** X3. [RunAll] calls plugins only under names of the order that have a
    plugin applying to the node, and in the order's order: the names called
    are an initial part of the applicable names of [pluginOrder]; they are
    all of them when [RunAll] returns [nil]. A plugin that is registered
    but was never enabled is never called. Each call is a real one: the
    [Cleanup] of the plugin registered under the name is applied to the
    world the call before it left, the recorded result is what it returned,
    and the world [RunAll] leaves is the one the last call left. [RunAll]
    returns [nil] exactly when none of these calls failed. *)
Theorem runAll_calls_the_applicable_names {W : Type} (r : Registry W)
    (node : Node) (w : W) :
  invoked (RunAll r node w)
    `prefix_of` filter (λ name, applicable r node name = true) (pluginOrder r)
  ∧ (runErr (RunAll r node w) = None →
     invoked (RunAll r node w)
       = filter (λ name, applicable r node name = true) (pluginOrder r))
  ∧ (∀ name, name ∈ invoked (RunAll r node w) →
       name ∈ pluginOrder r ∧ applicable r node name = true)
  ∧ replays r node (calls (RunAll r node w)) w (worldAfter (RunAll r node w))
  ∧ (runErr (RunAll r node w) = None ↔
       Forall (λ c, c.2 = None) (calls (RunAll r node w))).
Proof.
  destruct (RunAll_loop_applicable r node (pluginOrder r) w) as [Hpre Heq].
  split; [done|]. split; [done|]. split; [|split].
  - intros name Hin. destruct Hpre as [rest Hrest].
    assert (name ∈ filter (λ name, applicable r node name = true) (pluginOrder r)) as Hf.
    { rewrite Hrest. apply elem_of_app. by left. }
    apply list_elem_of_filter in Hf as [? ?]. done.
  - apply RunAll_loop_replays.
  - apply RunAll_loop_success.
Qed.

Lemma GetEnabledPlugins_loop_filter (iter : list (string * bool)) (acc : list string) :
  GetEnabledPlugins_loop iter acc = acc ++ (filter (λ e, e.2 = true) iter).*1.
Proof.
  revert acc. induction iter as [|[name en] iter IH]; intros acc; cbn [GetEnabledPlugins_loop].
  - by rewrite app_nil_r.
  - destruct en.
    + rewrite filter_cons_True by done. rewrite IH. cbn. by rewrite <- app_assoc.
    + rewrite filter_cons_False by done. by rewrite IH.
Qed.

(** X4. In whatever order the [range] statement visits the [enabled] map,
    [GetEnabledPlugins] returns exactly the names whose entry is [true],
    each once: a name that was never enabled, or was disabled since, is not
    in the result. *)
Theorem getEnabledPlugins_lists_the_enabled_names {W : Type} (r : Registry W)
    (iter : list (string * bool)) :
  iter ≡ₚ map_to_list (enabled r) →
  (∀ name, name ∈ GetEnabledPlugins iter ↔ isEnabled r name = true)
  ∧ NoDup (GetEnabledPlugins iter)
  ∧ (∀ name r', r = Disable name r' → name ∉ GetEnabledPlugins iter).
Proof.
  intros Hperm. unfold GetEnabledPlugins.
  rewrite GetEnabledPlugins_loop_filter. cbn [app].
  assert (∀ name, name ∈ (filter (λ e, e.2 = true) iter).*1 ↔ isEnabled r name = true)
    as Hmem.
  { intros name. rewrite list_elem_of_fmap. unfold isEnabled. split.
    - intros ([n en] & -> & Hin). apply list_elem_of_filter in Hin as [Hen Hin].
      cbn in Hen. subst en. rewrite Hperm in Hin.
      apply elem_of_map_to_list in Hin. cbn. by rewrite Hin.
    - intros Hen. exists (name, true). split; [done|].
      apply list_elem_of_filter. split; [done|]. rewrite Hperm.
      apply elem_of_map_to_list.
      destruct (enabled r !! name) as [[|]|]; done. }
  split; [done|]. split.
  - apply (sublist_NoDup _ (iter.*1)).
    + rewrite Hperm. apply NoDup_fst_map_to_list.
    + apply fmap_sublist, sublist_filter.
  - intros name r' ->. rewrite Hmem. unfold isEnabled, Disable. cbn.
    by rewrite lookup_insert_eq.
Qed.

Lemma getEnabledPlugins_lists_the_enabled_names_witness :
  GetEnabledPlugins (map_to_list (enabled Scenario.loggerDisabled)) = []
  ∧ "logger" ∉ GetEnabledPlugins (map_to_list (enabled Scenario.loggerDisabled)).
Proof.
  split; [reflexivity|].
  destruct (getEnabledPlugins_lists_the_enabled_names Scenario.loggerDisabled
              (map_to_list (enabled Scenario.loggerDisabled)))
    as (_ & _ & Hdis); [reflexivity|].
  apply (Hdis "logger" (Enable "logger" (Register Scenario.logger NewRegistry)).1).
  reflexivity.
Defined.

(** X5. The earlier revision of [RunAll] ranges over the [plugins] map:
    [iter] is the order in which one run visits the registered names, each
    once. It calls a plugin only if its name is enabled and the plugin
    applies to the node, and no plugin twice; when it returns [nil] it has
    called every enabled, applicable plugin, in the order of the visit. Each
    call is a real one: [Cleanup] is applied to the world the call before
    it left and the recorded result is what it returned. *)
Theorem earlier_runAll_calls_only_enabled {W : Type} (r : Registry W) (node : Node)
    (iter : list string) (w : W) :
  iter ≡ₚ (map_to_list (plugins r)).*1 →
  Forall (λ name, isEnabled r name = true ∧ applicable r node name = true)
    (invoked (RunAll_unordered_loop r node iter w))
  ∧ invoked (RunAll_unordered_loop r node iter w) `sublist_of` iter
  ∧ NoDup (invoked (RunAll_unordered_loop r node iter w))
  ∧ (runErr (RunAll_unordered_loop r node iter w) = None →
     invoked (RunAll_unordered_loop r node iter w)
       = filter (λ name, isEnabled r name = true ∧ applicable r node name = true) iter)
  ∧ replays r node (calls (RunAll_unordered_loop r node iter w)) w
      (worldAfter (RunAll_unordered_loop r node iter w)).
Proof.
  intros Hperm.
  assert (invoked (RunAll_unordered_loop r node iter w) `sublist_of` iter) as Hsub.
  { clear Hperm. revert w. unfold invoked.
    induction iter as [|name rest IH]; intros w; cbn; [done|].
    destruct (plugins r !! name) as [plugin|]; [|by apply sublist_cons].
    destruct (isEnabled r name); cbn; [|by apply sublist_cons].
    destruct (ShouldRun plugin node); cbn; [|by apply sublist_cons].
    destruct (Cleanup plugin node w) as [w' [err|]]; cbn.
    + apply sublist_skip, sublist_nil_l.
    + by apply sublist_skip. }
  split; [|split; [done|split; [|split]]].
  - clear Hperm Hsub. revert w. unfold invoked, applicable.
    induction iter as [|name rest IH]; intros w; cbn; [constructor|].
    destruct (plugins r !! name) as [plugin|] eqn:Hp; [|by apply IH].
    destruct (isEnabled r name) eqn:Hen; cbn; [|by apply IH].
    destruct (ShouldRun plugin node) eqn:Hrun; cbn; [|by apply IH].
    destruct (Cleanup plugin node w) as [w' [err|]]; cbn.
    + apply Forall_singleton. by rewrite Hp.
    + apply Forall_cons. split; [by rewrite Hp|]. apply IH.
  - apply (sublist_NoDup _ iter); [|done].
    rewrite Hperm. apply NoDup_fst_map_to_list.
  - clear Hperm Hsub. revert w. unfold invoked, applicable.
    induction iter as [|name rest IH]; intros w; cbn [RunAll_unordered_loop]; [done|].
    destruct (plugins r !! name) as [plugin|] eqn:Hp.
    2:{ rewrite filter_cons_False by (intros [_ ?]; rewrite Hp in *; congruence). apply IH. }
    destruct (isEnabled r name) eqn:Hen; cbn [negb].
    2:{ rewrite filter_cons_False by (intros [? _]; congruence). apply IH. }
    destruct (ShouldRun plugin node) eqn:Hrun; cbn [negb].
    2:{ rewrite filter_cons_False by (intros [_ ?]; rewrite Hp in *; congruence). apply IH. }
    rewrite filter_cons_True by (split; [done|by rewrite Hp, Hrun]).
    destruct (Cleanup plugin node w) as [w' [err|]]; cbn; [done|].
    intros Hok. by rewrite IH.
  - clear Hperm Hsub. revert w.
    induction iter as [|name rest IH]; intros w; cbn [RunAll_unordered_loop]; [done|].
    destruct (plugins r !! name) as [plugin|] eqn:Hp; [|apply IH].
    destruct (isEnabled r name); cbn [negb]; [|apply IH].
    destruct (ShouldRun plugin node) eqn:Hrun; cbn [negb]; [|apply IH].
    destruct (Cleanup plugin node w) as [w' [err|]] eqn:Hc; cbn.
    + exists plugin. by rewrite Hc.
    + exists plugin. rewrite Hc. cbn. repeat split; try done; try apply IH.
Qed.

Lemma earlier_runAll_calls_only_enabled_witness :
  (map_to_list (plugins Scenario.threeEnabled)).*1 = ["notify"; "logger"; "drain"]
  ∧ RunAll_unordered_loop Scenario.threeEnabled Scenario.n1 ["drain"; "notify"; "logger"] []
    = {| calls := [("drain", None); ("notify", None); ("logger", None)];
         worldAfter := ["drain"; "notify"; "logger"];
         runErr := None |}
  ∧ NoDup (invoked (RunAll_unordered_loop Scenario.threeEnabled Scenario.n1
                      ["drain"; "notify"; "logger"] [])).
Proof.
  split; [reflexivity|]. split; [reflexivity|].
  destruct (earlier_runAll_calls_only_enabled Scenario.threeEnabled Scenario.n1
              ["drain"; "notify"; "logger"] [])
    as (_ & _ & Hnd & _).
  - change ((map_to_list (plugins Scenario.threeEnabled)).*1)
      with ["notify"; "logger"; "drain"].
    apply (Permutation_cons_append ["notify"; "logger"] "drain").
  - exact Hnd.
Defined.

(** X6. The portworx plugin applies to a node exactly when the node has
    the label [px/enabled] with the value ["true"] or has a label
    [px/status] with any value; the label selector the plugin was built
    with plays no part. *)
Theorem portworx_applies_by_labels (p : PortworxPlugin) (node : Node) :
  (PortworxPlugin_ShouldRun p node = true ↔
     Labels node !! PortworxEnabledLabel = Some "true"
     ∨ is_Some (Labels node !! PortworxStatusLabel))
  ∧ (∀ selector,
       ShouldRun (PortworxAsPlugin (NewPortworxPlugin selector)) node
         = PortworxPlugin_ShouldRun p node).
Proof.
  split; [|done].
  unfold PortworxPlugin_ShouldRun.
  destruct (Labels node !! PortworxEnabledLabel) as [val|].
  - destruct (String.eqb_spec val PortworxEnabledValue) as [->|Hne].
    + split; [by left|done].
    + destruct (Labels node !! PortworxStatusLabel) as [st|].
      * split; [intros _; right; by eexists|done].
      * split; [done|]. intros [[= ?]|[? ?]]; done.
  - destruct (Labels node !! PortworxStatusLabel) as [st|].
    + split; [intros _; right; by eexists|done].
    + split; [done|]. intros [?|[? ?]]; done.
Qed.

Lemma mainRegistry_plugins (selector : string) (names : list string) (name : string) :
  plugins (mainRegistry selector names) !! name
    = if decide (name = PortworxPluginName)
      then Some (PortworxAsPlugin (NewPortworxPlugin selector))
      else if decide (name = LoggerPluginName) then Some NewLoggerPlugin else None.
Proof.
  unfold mainRegistry. rewrite enableAll_plugins. cbn.
  destruct (decide (name = PortworxPluginName)) as [->|Hpx].
  - by rewrite lookup_insert_eq.
  - rewrite lookup_insert_ne by done.
    destruct (decide (name = LoggerPluginName)) as [->|Hlg].
    + by rewrite lookup_insert_eq.
    + rewrite lookup_insert_ne by done. apply lookup_empty.
Qed.

Lemma mainRegistry_loop_live (selector : string) (names order : list string)
    (node : Node) :
  DeletionTimestamp node ≠ None →
  RunAll_loop (mainRegistry selector names) node order false
    = {| calls := (λ n, (n, None)) <$>
           filter (λ n, n = LoggerPluginName
                        ∨ (n = PortworxPluginName
                           ∧ PortworxPlugin_ShouldRun (NewPortworxPlugin selector) node = true))
             order;
         worldAfter := false;
         runErr := None |}.
Proof.
  intros Hdel. induction order as [|name rest IH]; [done|].
  cbn [RunAll_loop]. rewrite mainRegistry_plugins.
  destruct (decide (name = PortworxPluginName)) as [->|Hpx].
  - cbn [ShouldRun PortworxAsPlugin].
    destruct (PortworxPlugin_ShouldRun (NewPortworxPlugin selector) node) eqn:Hrun;
      cbn [negb].
    + rewrite filter_cons_True by (right; done).
      cbn [Cleanup PortworxAsPlugin PortworxPlugin_Cleanup]. by rewrite IH.
    + rewrite filter_cons_False; [done|]. intros [?|[_ ?]]; done.
  - destruct (decide (name = LoggerPluginName)) as [->|Hlg].
    + rewrite filter_cons_True by (by left).
      cbn [ShouldRun Cleanup NewLoggerPlugin LoggerPlugin_ShouldRun negb].
      unfold LoggerPlugin_Cleanup.
      destruct (DeletionTimestamp node); [|done]. by rewrite IH.
    + rewrite filter_cons_False; [done|]. intros [?|[? _]]; done.
Qed.

Lemma mainRegistry_loop_cancelled (selector : string) (names order : list string)
    (node : Node) :
  DeletionTimestamp node ≠ None →
  (∀ e, runErr (RunAll_loop (mainRegistry selector names) node order true) = Some e →
        e = errPluginFailed LoggerPluginName errCanceled)
  ∧ (LoggerPluginName ∈ order →
     runErr (RunAll_loop (mainRegistry selector names) node order true) ≠ None).
Proof.
  intros Hdel. induction order as [|name rest [IHe IHin]].
  - split; [done|]. intros Hin. by apply elem_of_nil in Hin.
  - cbn [RunAll_loop]. rewrite mainRegistry_plugins.
    destruct (decide (name = PortworxPluginName)) as [->|Hpx].
    + cbn [ShouldRun PortworxAsPlugin].
      destruct (PortworxPlugin_ShouldRun (NewPortworxPlugin selector) node); cbn.
      * split; [done|]. intros Hin. apply elem_of_cons in Hin as [?|Hin]; [done|auto].
      * split; [done|]. intros Hin. apply elem_of_cons in Hin as [?|Hin]; [done|auto].
    + destruct (decide (name = LoggerPluginName)) as [->|Hlg].
      * cbn [ShouldRun Cleanup NewLoggerPlugin LoggerPlugin_ShouldRun negb].
        unfold LoggerPlugin_Cleanup.
        destruct (DeletionTimestamp node); [|done].
        cbn. split; [by intros e [= <-]|done].
      * split; [done|]. intros Hin. apply elem_of_cons in Hin as [?|Hin]; [done|auto].
Qed.

(** X7. The registry that [main] builds from the configured names holds in
    its order exactly the configured names ["logger"] and ["portworx"],
    as often and in the order they were configured; any other name is
    passed over. On a node whose deletion was requested (the only nodes
    [processNode] runs cleanup for), and while the context is live,
    [RunAll] on it never fails: it calls the logger plugin at each of its
    entries and the portworx plugin at each of its entries if the node has
    the portworx labels. With the context cancelled, the only error
    [RunAll] can return for such a node is the logger plugin's, and it does
    return one whenever ["logger"] is configured. *)
Theorem main_registry_runs_the_shipped_plugins (selector : string)
    (names : list string) (node : Node) :
  DeletionTimestamp node ≠ None →
  pluginOrder (mainRegistry selector names)
    = filter (λ n, n = LoggerPluginName ∨ n = PortworxPluginName) names
  ∧ RunAll (mainRegistry selector names) node false
    = {| calls := (λ n, (n, None)) <$>
           filter (λ n, n = LoggerPluginName
                        ∨ (n = PortworxPluginName
                           ∧ PortworxPlugin_ShouldRun (NewPortworxPlugin selector) node = true))
             names;
         worldAfter := false;
         runErr := None |}
  ∧ (∀ e, runErr (RunAll (mainRegistry selector names) node true) = Some e →
          e = errPluginFailed LoggerPluginName errCanceled)
  ∧ (LoggerPluginName ∈ names →
     runErr (RunAll (mainRegistry selector names) node true) ≠ None).
Proof.
  intros Hdel.
  assert (pluginOrder (mainRegistry selector names)
          = filter (λ n, n = LoggerPluginName ∨ n = PortworxPluginName) names) as Horder.
  { unfold mainRegistry. rewrite enableAll_order_filter. cbn [pluginOrder Register NewRegistry app].
    apply list_filter_iff. intros n.
    pose proof (mainRegistry_plugins selector [] n) as Hp.
    unfold mainRegistry in Hp. cbn [enableAll foldl] in Hp. rewrite Hp.
    destruct (decide (n = PortworxPluginName)); [split; [by right|by eexists]|].
    destruct (decide (n = LoggerPluginName)); [split; [by left|by eexists]|].
    split; [by intros [? ?]|]. intros [?|?]; done. }
  split; [done|]. unfold RunAll. rewrite Horder. split; [|split].
  - rewrite mainRegistry_loop_live by done. f_equal. f_equal.
    rewrite list_filter_filter. apply list_filter_iff. intros n.
    split; [tauto|]. intros [->|[-> ?]]; split; auto.
  - by apply mainRegistry_loop_cancelled.
  - intros Hin. apply mainRegistry_loop_cancelled; [done|].
    apply list_elem_of_filter. split; [by left|done].
Qed.

Lemma main_registry_runs_the_shipped_plugins_witness :
  DeletionTimestamp Scenario.n1 ≠ None
  ∧ calls (RunAll (mainRegistry "" ["portworx"; "drain"; "logger"; "logger"])
             Scenario.n1 false)
    = [("logger", None); ("logger", None)]
  ∧ runErr (RunAll (mainRegistry "" ["portworx"; "drain"; "logger"; "logger"])
              Scenario.n1 true)
    ≠ None.
Proof.
  split; [discriminate|].
  destruct (main_registry_runs_the_shipped_plugins ""
              ["portworx"; "drain"; "logger"; "logger"] Scenario.n1)
    as (_ & Hlive & _ & Hfail); [discriminate|].
  split.
  - rewrite Hlive. reflexivity.
  - apply Hfail. apply elem_of_cons. right. apply elem_of_cons. right.
    apply elem_of_cons. left. reflexivity.
Defined.

(** * Further behaviour of the watcher *)

Section WatcherMore.

Context {W : Type}.
Implicit Types (w : Watcher W) (node : Node) (nodeName : string).

Lemma addFinalizer_stored w node stored :
  client w !! node_Name node = Some stored →
  addFinalizer w node
    = (setClient (setPatches w (patches w ++
                    [mkPatch (node_Name node) (Finalizers node ++ [FinalizerName])]))
         (<[node_Name node := setFinalizers stored (Finalizers node ++ [FinalizerName])]>
            (client w)),
       None).
Proof. intros Hs. unfold addFinalizer, PatchNode, addFinalizer_list. by rewrite Hs. Qed.

Lemma lacksFinalizer_guards node :
  lacksFinalizer node = true ↔
  DeletionTimestamp node = None
  ∧ containsFinalizer (Finalizers node) FinalizerName = false.
Proof.
  unfold lacksFinalizer. rewrite andb_true_iff, !negb_true_iff.
  rewrite bool_decide_eq_false. split.
  - intros [Hd Hc]. split; [|done]. by destruct (DeletionTimestamp node); [destruct Hd|].
  - intros [-> Hc]. split; [by intros ?|done].
Qed.

(** The loop of [initializeExistingNodes] over items with distinct names
    that the cluster holds as listed. *)
Lemma initializeExistingNodes_loop_spec (items : list Node) w (a s : nat) :
  NoDup (node_Name <$> items) →
  Forall (λ n, client w !! node_Name n = Some n) items →
  (∀ key, key ∉ node_Name <$> items →
     client (initializeExistingNodes_loop w items a s).1.1 !! key = client w !! key)
  ∧ (∀ n, n ∈ items →
       client (initializeExistingNodes_loop w items a s).1.1 !! node_Name n
         = Some (if lacksFinalizer n then withFinalizer n else n))
  ∧ patches (initializeExistingNodes_loop w items a s).1.1
      = patches w ++
        ((λ n, mkPatch (node_Name n) (Finalizers n ++ [FinalizerName]))
           <$> filter (λ n, lacksFinalizer n = true) items)
  ∧ workqueue (initializeExistingNodes_loop w items a s).1.1 = workqueue w
  ∧ processing (initializeExistingNodes_loop w items a s).1.1 = processing w
  ∧ world (initializeExistingNodes_loop w items a s).1.1 = world w
  ∧ cleanupCalls (initializeExistingNodes_loop w items a s).1.1 = cleanupCalls w
  ∧ (initializeExistingNodes_loop w items a s).1.2
      = a + length (filter (λ n, lacksFinalizer n = true) items)
  ∧ (initializeExistingNodes_loop w items a s).2
      = s + length (filter (λ n, lacksFinalizer n ≠ true) items).
Proof.
  revert w a s. induction items as [|node rest IH]; intros w a s Hnd Hall.
  - cbn. rewrite app_nil_r. repeat split; try done; try lia.
    intros n Hn. by apply elem_of_nil in Hn.
  - cbn in Hnd. apply NoDup_cons in Hnd as [Hnotin Hnd].
    apply Forall_cons in Hall as [Hnode Hall].
    assert (∀ w' : Watcher W, client w' = client w →
            Forall (λ n, client w' !! node_Name n = Some n) rest) as Hsame.
    { intros w' ->. done. }
    assert (lacksFinalizer node ≠ true →
            initializeExistingNodes_loop w (node :: rest) a s
              = initializeExistingNodes_loop w rest a (S s)) as Hskip.
    { intros Hl. cbn [initializeExistingNodes_loop]. unfold lacksFinalizer in Hl.
      destruct (bool_decide (DeletionTimestamp node ≠ None)); [done|].
      destruct (containsFinalizer (Finalizers node) FinalizerName); [done|].
      by destruct Hl. }
    destruct (lacksFinalizer node) eqn:Hl.
    + (* the finalizer is added *)
      apply lacksFinalizer_guards in Hl as Hg. destruct Hg as [Hd Hc].
      cbn [initializeExistingNodes_loop].
      rewrite bool_decide_eq_false_2 by (by rewrite Hd; intros ?). rewrite Hc.
      rewrite (addFinalizer_stored _ _ _ Hnode).
      match goal with |- context [initializeExistingNodes_loop ?w1 rest _ _] =>
        set (w1' := w1) end.
      assert (Forall (λ n, client w1' !! node_Name n = Some n) rest) as Hall1.
      { apply Forall_forall. intros n Hn. subst w1'. cbn.
        rewrite lookup_insert_ne.
        - by apply (proj1 (Forall_forall _ _) Hall).
        - intros Heq. apply Hnotin. rewrite Heq. by apply list_elem_of_fmap_2. }
      destruct (IH w1' (S a) s Hnd Hall1)
        as (Hout & Hin & Hpatch & Hq & Hp & Hw & Hc' & Ha & Hs).
      rewrite filter_cons_True by done.
      rewrite filter_cons_False by (rewrite Hl; intros Hne; by apply Hne).
      split; [|split; [|split]].
      * intros key Hkey. rewrite Hout.
        -- subst w1'. cbn. rewrite lookup_insert_ne; [done|].
           intros <-. apply Hkey. cbn. by left.
        -- intros Hk. apply Hkey. cbn. by right.
      * intros n Hn. apply elem_of_cons in Hn as [->|Hn].
        -- rewrite Hout by done. subst w1'. cbn. rewrite lookup_insert_eq.
           by rewrite Hl.
        -- by apply Hin.
      * rewrite Hpatch. subst w1'. cbn. by rewrite <- app_assoc.
      * rewrite Hq, Hp, Hw, Hc', Ha, Hs. subst w1'. cbn. repeat split; try done; lia.
    + (* the node is passed over *)
      rewrite Hskip by done.
      destruct (IH w a (S s) Hnd Hall)
        as (Hout & Hin & Hpatch & Hq & Hp & Hw & Hc' & Ha & Hs).
      rewrite filter_cons_False by (by rewrite Hl).
      rewrite filter_cons_True by (by rewrite Hl).
      split; [|split; [|split]].
      * intros key Hkey. apply Hout. intros Hk. apply Hkey. cbn. by right.
      * intros n Hn. apply elem_of_cons in Hn as [->|Hn].
        -- rewrite Hout by done. by rewrite Hl.
        -- by apply Hin.
      * done.
      * rewrite Hq, Hp, Hw, Hc', Ha, Hs. cbn. repeat split; try done; lia.
Qed.

Lemma List_wellKeyed w :
  wellKeyed (client w) →
  NoDup (node_Name <$> List w)
  ∧ Forall (λ n, client w !! node_Name n = Some n) (List w)
  ∧ (∀ key n, client w !! key = Some n → n ∈ List w)
  ∧ (∀ key, client w !! key = None → key ∉ node_Name <$> List w).
Proof.
  intros Hwk. unfold List.
  assert (∀ e, e ∈ map_to_list (client w) → node_Name e.2 = e.1) as Hname.
  { intros [k n] He. apply elem_of_map_to_list in He. by apply Hwk in He. }
  assert (node_Name <$> (map_to_list (client w)).*2 = (map_to_list (client w)).*1) as Hkeys.
  { rewrite <- list_fmap_compose. apply list_fmap_ext.
    intros i e He. apply Hname. by eapply list_elem_of_lookup_2. }
  split; [|split; [|split]].
  - rewrite Hkeys. apply NoDup_fst_map_to_list.
  - apply Forall_forall. intros n Hn. apply list_elem_of_fmap in Hn as ([k n'] & -> & He).
    pose proof (Hname _ He) as Hk. cbn in Hk. cbn. rewrite Hk.
    by apply elem_of_map_to_list.
  - intros key n Hk. apply list_elem_of_fmap. exists (key, n). split; [done|].
    by apply elem_of_map_to_list.
  - intros key Hk. rewrite Hkeys. intros Hin.
    apply list_elem_of_fmap in Hin as ([k n] & -> & He).
    apply elem_of_map_to_list in He. cbn in Hk. congruence.
Qed.

(** What holds of [List] holds of every listing of the same nodes. *)
Lemma listing_wellKeyed w (items : list Node) :
  wellKeyed (client w) →
  items ≡ₚ List w →
  NoDup (node_Name <$> items)
  ∧ Forall (λ n, client w !! node_Name n = Some n) items
  ∧ (∀ key n, client w !! key = Some n → n ∈ items)
  ∧ (∀ key, client w !! key = None → key ∉ node_Name <$> items).
Proof.
  intros Hwk Hperm. destruct (List_wellKeyed w Hwk) as (Hnd & Hall & Hin & Hout).
  split; [|split; [|split]].
  - by rewrite Hperm.
  - by rewrite Hperm.
  - intros key n Hk. rewrite Hperm. by eapply Hin.
  - intros key Hk. rewrite Hperm. by apply Hout.
Qed.

End WatcherMore.

Lemma filter_none {A : Type} (P : A → Prop) `{∀ x, Decision (P x)} (l : list A) :
  Forall (λ x, ¬ P x) l → filter P l = [].
Proof.
  induction 1 as [|x l Hx Hl IH]; [done|]. by rewrite filter_cons_False.
Qed.

Lemma containsFinalizer_app_marker (fs : list string) (target : string) :
  containsFinalizer (fs ++ [target]) target = true.
Proof.
  apply containsFinalizer_elem_of, elem_of_app. right. by apply list_elem_of_singleton.
Qed.

Lemma initializeExistingNodes_on_spec {W : Type} (w : Watcher W) (items : list Node) :
  wellKeyed (client w) →
  items ≡ₚ List w →
  client (initializeExistingNodes_on w (inl items)).1
    = (λ n, if lacksFinalizer n then withFinalizer n else n) <$> client w
  ∧ patches (initializeExistingNodes_on w (inl items)).1
    = patches w ++
      ((λ n, mkPatch (node_Name n) (Finalizers n ++ [FinalizerName]))
         <$> filter (λ n, lacksFinalizer n = true) items)
  ∧ workqueue (initializeExistingNodes_on w (inl items)).1 = workqueue w
  ∧ processing (initializeExistingNodes_on w (inl items)).1 = processing w
  ∧ world (initializeExistingNodes_on w (inl items)).1 = world w
  ∧ cleanupCalls (initializeExistingNodes_on w (inl items)).1 = cleanupCalls w.
Proof.
  intros Hwk Hperm.
  destruct (listing_wellKeyed w items Hwk Hperm) as (Hnd & Hall & Hin & Hout).
  destruct (initializeExistingNodes_loop_spec items w 0 0 Hnd Hall)
    as (Houtside & Hinside & Hpatch & Hq & Hp & Hw & Hc & _).
  unfold initializeExistingNodes_on. cbn [fst].
  split; [|done].
  apply map_eq. intros key. rewrite lookup_fmap.
  destruct (client w !! key) as [n|] eqn:Hk.
  - pose proof (Hwk _ _ Hk) as Hname. cbn in Hname. subst key.
    cbn. apply Hinside. by eapply Hin.
  - cbn. rewrite Houtside; [done|]. by apply Hout.
Qed.

Lemma initializeExistingNodes_spec {W : Type} (w : Watcher W) :
  wellKeyed (client w) →
  client (initializeExistingNodes w).1
    = (λ n, if lacksFinalizer n then withFinalizer n else n) <$> client w
  ∧ patches (initializeExistingNodes w).1
    = patches w ++
      ((λ n, mkPatch (node_Name n) (Finalizers n ++ [FinalizerName]))
         <$> filter (λ n, lacksFinalizer n = true) (List w))
  ∧ workqueue (initializeExistingNodes w).1 = workqueue w
  ∧ processing (initializeExistingNodes w).1 = processing w
  ∧ world (initializeExistingNodes w).1 = world w
  ∧ cleanupCalls (initializeExistingNodes w).1 = cleanupCalls w.
Proof.
  intros Hwk. by apply initializeExistingNodes_on_spec.
Qed.

(** X8. Let the cluster hold every node under its own name and let the
    [List] call return its nodes as [items], in whatever order the client
    lists them. Then [initializeExistingNodes] returns [nil] and leaves
    every node that was not being deleted and had no finalizer of this
    webhook with that finalizer appended to its list, and every other node
    as it was: one patch is sent per node it changes, in the order of the
    listing, and none for the others. Afterwards every node that is not
    being deleted carries the finalizer; nothing is queued and no cleanup
    runs. When the [List] call fails instead, [initializeExistingNodes]
    returns that error wrapped as ["failed to list nodes: ..."] and has
    changed nothing. *)
Theorem initializeExistingNodes_marks_live_nodes {W : Type} (w : Watcher W)
    (items : list Node) :
  wellKeyed (client w) →
  items ≡ₚ List w →
  (initializeExistingNodes_on w (inl items)).2 = None
  ∧ client (initializeExistingNodes_on w (inl items)).1
    = (λ n, if lacksFinalizer n then withFinalizer n else n) <$> client w
  ∧ patches (initializeExistingNodes_on w (inl items)).1
    = patches w ++
      ((λ n, mkPatch (node_Name n) (Finalizers n ++ [FinalizerName]))
         <$> filter (λ n, lacksFinalizer n = true) items)
  ∧ (∀ key n, client (initializeExistingNodes_on w (inl items)).1 !! key = Some n →
       DeletionTimestamp n = None →
       containsFinalizer (Finalizers n) FinalizerName = true)
  ∧ (∀ key n, client w !! key = Some n → DeletionTimestamp n ≠ None →
       client (initializeExistingNodes_on w (inl items)).1 !! key = Some n)
  ∧ workqueue (initializeExistingNodes_on w (inl items)).1 = workqueue w
  ∧ processing (initializeExistingNodes_on w (inl items)).1 = processing w
  ∧ cleanupCalls (initializeExistingNodes_on w (inl items)).1 = cleanupCalls w
  ∧ (∀ err, initializeExistingNodes_on w (inr err) = (w, Some (errListNodes err))
            ∧ Unwrap (errListNodes err) = Some err
            ∧ Error (errListNodes err) = "failed to list nodes: " +:+ Error err).
Proof.
  intros Hwk Hperm.
  destruct (initializeExistingNodes_on_spec w items Hwk Hperm)
    as (Hclient & Hpatch & Hq & Hp & _ & Hc).
  split; [done|]. split; [done|]. split; [done|].
  split; [|split; [|split; [done|split; [done|split; [done|]]]]].
  - intros key n. rewrite Hclient, lookup_fmap.
    destruct (client w !! key) as [n0|]; [|done]. cbn.
    destruct (lacksFinalizer n0) eqn:Hl; intros [= <-].
    + intros _. cbn. apply containsFinalizer_app_marker.
    + intros Hd. unfold lacksFinalizer in Hl. rewrite Hd in Hl.
      rewrite bool_decide_eq_false_2 in Hl by (by intros ?). cbn in Hl.
      by apply negb_false_iff in Hl.
  - intros key n Hk Hd. rewrite Hclient, lookup_fmap, Hk. cbn.
    unfold lacksFinalizer. by rewrite bool_decide_eq_true_2.
  - intros err. done.
Qed.

Lemma initializeExistingNodes_marks_live_nodes_witness :
  List Examples.startingTwo
    = [Scenario.marked; Scenario.n1; Examples.claimed; Examples.bare]
  ∧ patches (initializeExistingNodes_on Examples.startingTwo
               (inl [Examples.bare; Scenario.n1; Examples.claimed; Scenario.marked])).1
    = [mkPatch "n4" [FinalizerName];
       mkPatch "n2" ["storage.example/protect"; FinalizerName]]
  ∧ client (initializeExistingNodes_on Examples.startingTwo
              (inl [Examples.bare; Scenario.n1; Examples.claimed; Scenario.marked])).1
      !! "n1" = Some Scenario.n1.
Proof.
  split; [reflexivity|].
  destruct (initializeExistingNodes_marks_live_nodes Examples.startingTwo
              [Examples.bare; Scenario.n1; Examples.claimed; Scenario.marked])
    as (_ & _ & Hpatch & _ & Hdel & _).
  { unfold wellKeyed. apply (bool_decide_unpack _). vm_compute. exact I. }
  { change (List Examples.startingTwo)
      with [Scenario.marked; Scenario.n1; Examples.claimed; Examples.bare].
    etrans; [apply (Permutation_cons_append
                      [Scenario.n1; Examples.claimed; Scenario.marked] Examples.bare)|].
    apply (Permutation_app_tail [Examples.bare]
             (l := [Scenario.n1; Examples.claimed; Scenario.marked])
             (l' := [Scenario.marked; Scenario.n1; Examples.claimed])).
    symmetry.
    apply (Permutation_cons_append [Scenario.n1; Examples.claimed] Scenario.marked). }
  split.
  - rewrite Hpatch. reflexivity.
  - apply Hdel; [reflexivity|discriminate].
Defined.

(** X9. Running [initializeExistingNodes] a second time changes nothing: it
    sends no patch and leaves every node as the first run left it. *)
Theorem initializeExistingNodes_twice {W : Type} (w : Watcher W) :
  wellKeyed (client w) →
  client (initializeExistingNodes (initializeExistingNodes w).1).1
    = client (initializeExistingNodes w).1
  ∧ patches (initializeExistingNodes (initializeExistingNodes w).1).1
    = patches (initializeExistingNodes w).1.
Proof.
  intros Hwk.
  destruct (initializeExistingNodes_spec w Hwk) as (Hclient & _).
  set (w1 := (initializeExistingNodes w).1) in *.
  assert (∀ n, lacksFinalizer (if lacksFinalizer n then withFinalizer n else n) = false)
    as Hdone.
  { intros n. destruct (lacksFinalizer n) eqn:Hl; [|done].
    unfold lacksFinalizer. cbn. rewrite containsFinalizer_app_marker. cbn.
    apply andb_false_r. }
  assert (∀ key n, client w1 !! key = Some n → lacksFinalizer n = false) as Hnone.
  { intros key n. rewrite Hclient, lookup_fmap.
    destruct (client w !! key) as [n0|]; [|done]. cbn. intros [= <-]. apply Hdone. }
  assert (wellKeyed (client w1)) as Hwk1.
  { intros key n. rewrite Hclient, lookup_fmap.
    destruct (client w !! key) as [n0|] eqn:Hk; [|done]. cbn. intros [= <-].
    pose proof (Hwk _ _ Hk) as Hname. cbn in Hname.
    by destruct (lacksFinalizer n0). }
  destruct (initializeExistingNodes_spec w1 Hwk1) as (Hclient1 & Hpatch1 & _).
  split.
  - rewrite Hclient1. apply map_eq. intros key. rewrite lookup_fmap.
    destruct (client w1 !! key) as [n|] eqn:Hk; [|done]. cbn.
    by rewrite (Hnone _ _ Hk).
  - rewrite Hpatch1.
    assert (filter (λ n, lacksFinalizer n = true) (List w1) = []) as ->.
    { apply filter_none. apply Forall_forall. intros n Hn.
      apply list_elem_of_fmap in Hn as ([k n'] & -> & He).
      apply elem_of_map_to_list in He. cbn. by rewrite (Hnone _ _ He). }
    cbn. by rewrite app_nil_r.
Qed.

Lemma initializeExistingNodes_twice_witness :
  patches (initializeExistingNodes (initializeExistingNodes Examples.starting).1).1
    = [mkPatch "n4" [FinalizerName]].
Proof.
  destruct (initializeExistingNodes_twice Examples.starting) as (_ & Hpatch).
  { unfold wellKeyed. apply (bool_decide_unpack _). vm_compute. exact I. }
  rewrite Hpatch. reflexivity.
Defined.

Section WatcherEffects.

Context {W : Type}.
Implicit Types (w : Watcher W) (node : Node) (nodeName : string).

Lemma removeFinalizer_list_no_marker node :
  markerCount (removeFinalizer_list node) = 0.
Proof.
  unfold markerCount. rewrite removeFinalizer_list_filter, list_filter_filter.
  rewrite filter_none; [done|]. apply Forall_forall. intros f _ [? ?]. done.
Qed.

(** Everything one run of [processNode] can do to the watcher. *)
Lemma processNode_effects w nodeName :
  processing (processNode w nodeName) = processing w ∖ {[nodeName]}
  ∧ workqueue (processNode w nodeName) = workqueue w
  ∧ active (processNode w nodeName) = active w
  ∧ finalizerAdds (processNode w nodeName) = finalizerAdds w
  ∧ pluginRegistry (processNode w nodeName) = pluginRegistry w
  ∧ cleanupCalls w `prefix_of` cleanupCalls (processNode w nodeName)
  ∧ (patches (processNode w nodeName) = patches w
     ∨ ∃ node, patches (processNode w nodeName)
                 = patches w ++ [mkPatch (node_Name node) (removeFinalizer_list node)])
  ∧ (retries (processNode w nodeName) = retries w
     ∨ retries (processNode w nodeName) = retries w ++ [nodeName]).
Proof.
  assert (∀ w1 node, workqueue w1 = workqueue w → processing w1 = processing w →
            active w1 = active w → finalizerAdds w1 = finalizerAdds w →
            pluginRegistry w1 = pluginRegistry w →
            cleanupCalls w `prefix_of` cleanupCalls w1 →
            patches w1 = patches w → retries w1 = retries w →
            let w2 := release (removeFinalizer w1 node).1 nodeName in
            processing w2 = processing w ∖ {[nodeName]}
            ∧ workqueue w2 = workqueue w ∧ active w2 = active w
            ∧ finalizerAdds w2 = finalizerAdds w
            ∧ pluginRegistry w2 = pluginRegistry w
            ∧ cleanupCalls w `prefix_of` cleanupCalls w2
            ∧ (patches w2 = patches w
               ∨ ∃ node, patches w2
                   = patches w ++ [mkPatch (node_Name node) (removeFinalizer_list node)])
            ∧ (retries w2 = retries w ∨ retries w2 = retries w ++ [nodeName])) as Hpatch.
  { intros w1 node Hq Hp Ha Hf Hr Hc Hpa Hre. cbn zeta.
    rewrite removeFinalizer_PatchNode.
    unfold PatchNode. destruct (client w1 !! node_Name node); cbn;
      rewrite Hq, Hp, Ha, Hf, Hr, Hpa, Hre;
      (repeat split; try done; [right; by eexists|by left]). }
  unfold processNode.
  destruct (Get w nodeName) as [node|].
  2:{ cbn. repeat split; try done; by left. }
  destruct (bool_decide (DeletionTimestamp node = None)
            || negb (containsFinalizer (Finalizers node) FinalizerName)).
  { cbn. repeat split; try done; by left. }
  destruct (String.eqb (annotation node SkipCleanupAnnotation) "true").
  { by apply Hpatch. }
  unfold runCleanup.
  destruct (runErr (RunAll (pluginRegistry w) node (world w))).
  { cbn. repeat split; try done; [by eexists|by left|by right]. }
  match goal with |- context [Get ?w1 nodeName] => destruct (Get w1 nodeName) as [node'|] end.
  - apply Hpatch; try done. cbn. by eexists.
  - cbn. repeat split; try done; [by eexists|by left|by left].
Qed.

Lemma enqueueIfDeleting_frame w node :
  patches (enqueueIfDeleting w node) = patches w
  ∧ finalizerAdds (enqueueIfDeleting w node) = finalizerAdds w
  ∧ client (enqueueIfDeleting w node) = client w
  ∧ retries (enqueueIfDeleting w node) = retries w.
Proof.
  unfold enqueueIfDeleting.
  destruct (bool_decide (DeletionTimestamp node = None)); [done|].
  destruct (containsFinalizer (Finalizers node) FinalizerName); cbn; [|done].
  by destruct (LoadOrStore (processing w) (node_Name node)) as [s [|]].
Qed.

Lemma ensureFinalizer_adds w node :
  ensureFinalizer w node
    = if lacksFinalizer node then setFinalizerAdds w (finalizerAdds w ++ [node]) else w.
Proof.
  unfold ensureFinalizer, lacksFinalizer.
  destruct (bool_decide (DeletionTimestamp node ≠ None)); [done|].
  by destruct (containsFinalizer (Finalizers node) FinalizerName).
Qed.

Lemma step_keeps_patchesSound w l w' :
  step w l = Some w' → patchesSound w → patchesSound w'.
Proof.
  intros Hstep [Hpatches Hadds].
  assert (∀ node, patchesSound (ensureFinalizer w node)) as Hensure.
  { intros node. rewrite ensureFinalizer_adds.
    destruct (lacksFinalizer node) eqn:Hl; [|done]. split; [done|]. cbn.
    apply Forall_app. split; [done|]. by apply Forall_singleton. }
  assert (∀ w1 node, patchesSound w1 → patchesSound (enqueueIfDeleting w1 node)) as Henq.
  { intros w1 node [? ?]. destruct (enqueueIfDeleting_frame w1 node) as (Hp & Hf & _).
    unfold patchesSound. by rewrite Hp, Hf. }
  destruct l as [node|node|nodes| | | |n|n]; cbn in Hstep.
  - injection Hstep as <-. apply Hensure.
  - destruct (canEnqueue (ensureFinalizer w node) node); [|done].
    injection Hstep as <-. apply Henq, Hensure.
  - by injection Hstep as <-.
  - destruct (finalizerAdds w) as [|node rest] eqn:Hfa; [done|].
    injection Hstep as <-. apply Forall_cons in Hadds as [Hl Hrest].
    rewrite addFinalizer_PatchNode.
    match goal with |- context [PatchNode ?w1 ?n ?fs] =>
      destruct (PatchNode_frame w1 n fs) as (Hp & _ & _ & _ & Hf & _) end.
    unfold patchesSound. rewrite Hp, Hf. cbn. split; [|done].
    apply Forall_app. split; [done|]. apply Forall_singleton. cbn [patch_finalizers].
    apply lacksFinalizer_guards in Hl as [_ Hc].
    unfold markerCount, addFinalizer_list. cbn [app].
    rewrite filter_app, length_app, (containsFinalizer_false_filter _ _ Hc).
    by rewrite filter_cons_True.
  - destruct (active w) as [a|]; [done|].
    destruct (workqueue w) as [|n rest]; [done|]. by injection Hstep as <-.
  - destruct (active w) as [n|]; [|done]. injection Hstep as <-.
    destruct (processNode_effects w n) as (_ & _ & _ & Hf & _ & _ & Hp & _).
    unfold patchesSound. cbn. rewrite Hf. split; [|done].
    destruct Hp as [->|[node ->]]; [done|].
    apply Forall_app. split; [done|]. apply Forall_singleton. cbn [patch_finalizers].
    rewrite removeFinalizer_list_no_marker. lia.
  - assert (∀ w1, patchesSound w1 → patchesSound (retryFire w1 n)) as Hfire.
    { intros w1 Hs. unfold retryFire.
      match goal with |- context [Get ?w2 n] => destruct (Get w2 n) as [nd|] end;
        [by apply Henq|done]. }
    destruct (bool_decide (n ∈ retries w)); [|done].
    match type of Hstep with context [Get ?w1 n] =>
      destruct (Get w1 n) as [nd|] eqn:Hget end.
    + match type of Hstep with context [canEnqueue ?a ?b] =>
        destruct (canEnqueue a b) end; [|done].
      injection Hstep as <-. by apply Hfire.
    + injection Hstep as <-. by apply Hfire.
  - destruct (bool_decide (n ∈ retries w)); [|done]. by injection Hstep as <-.
Qed.

Lemma run_keeps_patchesSound w ls w' :
  run w ls = Some w' → patchesSound w → patchesSound w'.
Proof.
  revert w. induction ls as [|l ls IH]; intros w Hrun Hinv; cbn in Hrun.
  - by injection Hrun as <-.
  - destruct (step w l) as [w1|] eqn:Hstep; [|done].
    eapply IH; [done|]. by eapply step_keeps_patchesSound.
Qed.

End WatcherEffects.

(** X10. [enqueueIfDeleting] claims a node at most once: called again for a
    node it has just queued (or for any node that is not pending deletion
    with the finalizer, or is already in the in-flight set) it changes
    nothing; when it does queue, it adds the name to the in-flight set and at
    the end of the queue, and nothing else. *)
Theorem enqueueIfDeleting_claims_once {W : Type} (w : Watcher W) (node : Node) :
  enqueueIfDeleting (enqueueIfDeleting w node) node = enqueueIfDeleting w node
  ∧ (wouldSend w node = false → enqueueIfDeleting w node = w)
  ∧ (wouldSend w node = true →
     enqueueIfDeleting w node
       = setWorkqueue (setProcessing w ({[node_Name node]} ∪ processing w))
           (workqueue w ++ [node_Name node])).
Proof.
  unfold enqueueIfDeleting, wouldSend, LoadOrStore.
  destruct (bool_decide (DeletionTimestamp node = None)); cbn; [done|].
  destruct (containsFinalizer (Finalizers node) FinalizerName); cbn; [|done].
  destruct (decide (node_Name node ∈ processing w)) as [Hin|Hnotin].
  - rewrite bool_decide_eq_true_2 by done. cbn.
    split; [|done]. by rewrite decide_True.
  - rewrite bool_decide_eq_false_2 by done. cbn.
    split; [|done]. rewrite decide_True; [done|].
    apply elem_of_union. left. by apply elem_of_singleton.
Qed.

(** X11. On every path [processNode] releases its name from the in-flight
    set and leaves the queue, the consumer, the registry and the waiting add
    goroutines alone. It sends at most one patch, which is always a removal
    patch built by [removeFinalizer]; it starts at most one retry goroutine;
    and it only adds to the record of cleanup calls. *)
Theorem processNode_always_releases {W : Type} (w : Watcher W) (nodeName : string) :
  (nodeName ∉ processing (processNode w nodeName))
  ∧ processing (processNode w nodeName) = processing w ∖ {[nodeName]}
  ∧ workqueue (processNode w nodeName) = workqueue w
  ∧ active (processNode w nodeName) = active w
  ∧ finalizerAdds (processNode w nodeName) = finalizerAdds w
  ∧ pluginRegistry (processNode w nodeName) = pluginRegistry w
  ∧ cleanupCalls w `prefix_of` cleanupCalls (processNode w nodeName)
  ∧ (patches (processNode w nodeName) = patches w
     ∨ ∃ node, patches (processNode w nodeName)
                 = patches w ++ [mkPatch (node_Name node) (removeFinalizer_list node)])
  ∧ (retries (processNode w nodeName) = retries w
     ∨ retries (processNode w nodeName) = retries w ++ [nodeName]).
Proof.
  destruct (processNode_effects w nodeName) as (Hp & Hrest).
  split; [|by split].
  rewrite Hp, elem_of_difference, elem_of_singleton. tauto.
Qed.

(** X12. When the cleanup of a node fails, [processNode] sends no patch and
    leaves the cluster as it is, so the node keeps its finalizer; it starts
    exactly one retry goroutine for the name and releases the name. *)
Theorem failed_cleanup_keeps_the_finalizer {W : Type} (w : Watcher W)
    (nodeName : string) (node : Node) (e : error) :
  Get w nodeName = Some node →
  DeletionTimestamp node ≠ None →
  containsFinalizer (Finalizers node) FinalizerName = true →
  annotation node SkipCleanupAnnotation ≠ "true" →
  runErr (RunAll (pluginRegistry w) node (world w)) = Some e →
  patches (processNode w nodeName) = patches w
  ∧ client (processNode w nodeName) = client w
  ∧ Get (processNode w nodeName) nodeName = Some node
  ∧ retries (processNode w nodeName) = retries w ++ [nodeName]
  ∧ (nodeName ∉ processing (processNode w nodeName))
  ∧ world (processNode w nodeName)
    = worldAfter (RunAll (pluginRegistry w) node (world w)).
Proof.
  intros Hget Hdel Hfin Hskip Herr.
  destruct (processNode_effects w nodeName) as (Hp & _).
  assert (nodeName ∉ processing (processNode w nodeName)) as Hrel.
  { rewrite Hp, elem_of_difference, elem_of_singleton. tauto. }
  revert Hrel. unfold processNode. rewrite Hget.
  rewrite bool_decide_eq_false_2 by done. rewrite Hfin. cbn [negb orb].
  destruct (String.eqb_spec (annotation node SkipCleanupAnnotation) "true"); [done|].
  unfold runCleanup. rewrite Herr. cbn. intros Hrel.
  repeat split; try done.
Qed.

Lemma failed_cleanup_keeps_the_finalizer_witness :
  retries (processNode Scenario.stuck "n1") = ["n1"]
  ∧ Get (processNode Scenario.stuck "n1") "n1" = Some Scenario.n1.
Proof.
  destruct (failed_cleanup_keeps_the_finalizer Scenario.stuck "n1" Scenario.n1
              (errPluginFailed "storage" (errorString "decommission refused")))
    as (_ & _ & Hget & Hretries & _);
    [reflexivity|discriminate|reflexivity|discriminate|reflexivity|].
  split; [exact Hretries|exact Hget].
Defined.

(** X13. When the cleanup of a node succeeds, [processNode] sends exactly
    one patch and the cluster's node is left with its finalizers minus the
    finalizer of this webhook: that finalizer is gone, every other one is
    kept, and no retry is started. *)
Theorem successful_cleanup_removes_the_finalizer {W : Type} (w : Watcher W)
    (nodeName : string) (node : Node) :
  Get w nodeName = Some node →
  node_Name node = nodeName →
  DeletionTimestamp node ≠ None →
  containsFinalizer (Finalizers node) FinalizerName = true →
  annotation node SkipCleanupAnnotation ≠ "true" →
  runErr (RunAll (pluginRegistry w) node (world w)) = None →
  client (processNode w nodeName)
    = <[nodeName := setFinalizers node (filter (λ f, f ≠ FinalizerName) (Finalizers node))]>
        (client w)
  ∧ patches (processNode w nodeName)
    = patches w ++ [mkPatch nodeName (filter (λ f, f ≠ FinalizerName) (Finalizers node))]
  ∧ retries (processNode w nodeName) = retries w
  ∧ containsFinalizer (filter (λ f, f ≠ FinalizerName) (Finalizers node)) FinalizerName
    = false
  ∧ (∀ f, f ≠ FinalizerName →
       (f ∈ filter (λ f, f ≠ FinalizerName) (Finalizers node) ↔ f ∈ Finalizers node)).
Proof.
  intros Hget Hname Hdel Hfin Hskip Hok.
  assert (containsFinalizer (filter (λ f, f ≠ FinalizerName) (Finalizers node))
            FinalizerName = false) as Hgone.
  { apply not_true_is_false. rewrite containsFinalizer_elem_of.
    intros Hin. apply list_elem_of_filter in Hin as [Hne _]. done. }
  assert (∀ f, f ≠ FinalizerName →
            (f ∈ filter (λ f, f ≠ FinalizerName) (Finalizers node) ↔ f ∈ Finalizers node))
    as Hkept.
  { intros f Hf. rewrite list_elem_of_filter. tauto. }
  assert (processNode w nodeName
          = release (removeFinalizer
                       (setWorld w (worldAfter (RunAll (pluginRegistry w) node (world w)))
                          (cleanupCalls w
                           ++ invoked (RunAll (pluginRegistry w) node (world w))))
                       node).1 nodeName) as ->.
  { unfold processNode. rewrite Hget.
    rewrite bool_decide_eq_false_2 by done. rewrite Hfin. cbn [negb orb].
    destruct (String.eqb_spec (annotation node SkipCleanupAnnotation) "true"); [done|].
    unfold runCleanup. rewrite Hok.
    match goal with |- context [Get ?w1 nodeName] =>
      change (Get w1 nodeName) with (Get w nodeName) end.
    by rewrite Hget. }
  unfold removeFinalizer, PatchNode. cbn [client setWorld]. rewrite Hname.
  unfold Get in Hget. rewrite Hget, removeFinalizer_list_filter. cbn. done.
Qed.

Lemma successful_cleanup_removes_the_finalizer_witness :
  client (processNode (Scenario.watching Scenario.n1 Scenario.loggerOnly) "n1") !! "n1"
    = Some (setFinalizers Scenario.n1 ["other"]).
Proof.
  destruct (successful_cleanup_removes_the_finalizer
              (Scenario.watching Scenario.n1 Scenario.loggerOnly) "n1" Scenario.n1)
    as (Hclient & _);
    [reflexivity|reflexivity|discriminate|reflexivity|discriminate|reflexivity|].
  rewrite Hclient. reflexivity.
Defined.

(** X14. Whatever happens to a watcher started by [New], no patch it has
    sent holds the finalizer of this webhook more than once, and every
    goroutine waiting to add the finalizer was started for a node that was
    not being deleted and did not carry it. *)
Theorem patches_never_duplicate_the_finalizer {W : Type} (nodes : gmap string Node)
    (r : Registry W) (x : W) (ls : list Label) (w : Watcher W) :
  run (New nodes r x) ls = Some w →
  Forall (λ p, markerCount (patch_finalizers p) ≤ 1) (patches w)
  ∧ Forall (λ n, lacksFinalizer n = true) (finalizerAdds w).
Proof.
  intros Hrun. eapply run_keeps_patchesSound; [done|].
  split; cbn; constructor.
Qed.

Lemma patches_never_duplicate_the_finalizer_witness :
  ∃ w, run Examples.starting [LAdd Examples.bare; LAdd Examples.bare;
                              LAddFinalizer; LAddFinalizer] = Some w
       ∧ patches w = [mkPatch "n4" [FinalizerName]; mkPatch "n4" [FinalizerName]]
       ∧ Forall (λ p, markerCount (patch_finalizers p) ≤ 1) (patches w).
Proof.
  eexists. split; [vm_compute; reflexivity|]. split; [reflexivity|].
  eapply (patches_never_duplicate_the_finalizer Examples.cluster Scenario.loggerOnly []
            [LAdd Examples.bare; LAdd Examples.bare; LAddFinalizer; LAddFinalizer]).
  vm_compute. reflexivity.
Defined.

(** X15. As long as no retry goroutine has run, a watcher started by [New]
    never has two attempts for one node: no name is queued twice, the name
    being processed is not queued as well, and every name that is queued or
    being processed is in the in-flight set. The converse is not stated:
    [enqueueIfDeleting] stores the name before it sends it, so a name can be
    in the set while its send is still waiting for room in the channel. *)
Theorem no_retry_no_duplicate_attempt {W : Type} (nodes : gmap string Node)
    (r : Registry W) (x : W) (ls : list Label) (w : Watcher W) :
  Forall (λ l, isRetry l = false) ls →
  run (New nodes r x) ls = Some w →
  atMostOneAttempt w ∧ NoDup (workqueue w)
  ∧ (∀ nodeName, nodeName ∈ workqueue w → nodeName ∈ processing w)
  ∧ (∀ nodeName, active w = Some nodeName →
       nodeName ∈ processing w ∧ nodeName ∉ workqueue w).
Proof.
  intros Hall Hrun.
  assert (inflightInv w) as Hinv.
  { eapply run_keeps_inflightInv; [done..|]. apply New_inflightInv. }
  destruct (inflightInv_spec w Hinv) as [_ Hone].
  destruct Hinv as (Hnd & Hact & Hiff).
  split; [done|]. split; [done|]. split.
  - intros n Hn. apply Hiff. by left.
  - intros n Hn. split; [|by apply Hact]. apply Hiff. by right.
Qed.

Lemma no_retry_no_duplicate_attempt_witness :
  ∃ w, run Examples.starting [LUpdate Scenario.n1; LUpdate Scenario.n1; LReceive] = Some w
       ∧ active w = Some "n1" ∧ workqueue w = []
       ∧ atMostOneAttempt w.
Proof.
  eexists. split; [vm_compute; reflexivity|]. split; [reflexivity|]. split; [reflexivity|].
  eapply (no_retry_no_duplicate_attempt Examples.cluster Scenario.loggerOnly []
            [LUpdate Scenario.n1; LUpdate Scenario.n1; LReceive]).
  - repeat constructor.
  - vm_compute. reflexivity.
Defined.

(** X16. When the timer of a retry goroutine fires for a node that is gone
    from the cluster, is no longer pending deletion, or no longer carries
    the finalizer, the goroutine only deletes the name from the in-flight
    set and ends: nothing is queued. *)
Theorem retry_for_settled_node_queues_nothing {W : Type} (w : Watcher W)
    (nodeName : string) :
  nodeName ∈ retries w →
  Get w nodeName = None
    ∨ (∃ n, Get w nodeName = Some n
            ∧ (DeletionTimestamp n = None
               ∨ containsFinalizer (Finalizers n) FinalizerName = false)) →
  step w (LRetryFire nodeName)
    = Some (setProcessing (setRetries w (remove_first nodeName (retries w)))
              (processing w ∖ {[nodeName]})).
Proof.
  intros Hin Hsettled. cbn [step]. rewrite bool_decide_eq_true_2 by done.
  unfold retryFire, Get in *. cbn [client setRetries setProcessing].
  destruct Hsettled as [->|(n & -> & Hn)]; [done|].
  assert (∀ w1 : Watcher W, wouldSend w1 n = false) as Hno.
  { intros w1. unfold wouldSend. destruct Hn as [->| ->].
    - by rewrite bool_decide_eq_true_2.
    - by rewrite andb_false_r. }
  unfold canEnqueue. rewrite Hno. cbn [negb orb].
  f_equal. unfold enqueueIfDeleting. destruct Hn as [->| ->].
  - by rewrite bool_decide_eq_true_2.
  - by destruct (bool_decide (DeletionTimestamp n = None)).
Qed.

Lemma retry_for_settled_node_queues_nothing_witness :
  ∃ w, step Examples.retryForGone (LRetryFire "n1") = Some w
       ∧ workqueue w = [] ∧ retries w = [].
Proof.
  eexists. split.
  - apply (retry_for_settled_node_queues_nothing Examples.retryForGone "n1").
    + apply elem_of_cons. left. reflexivity.
    + left. reflexivity.
  - split; reflexivity.
Defined.

(** X17. The goroutine that [ensureFinalizer] starts patches the list it
    computes from the node object of the event. Run against a cluster whose
    object of that name has other finalizers by then, the patch replaces the
    stored list by the event's list plus the finalizer: a finalizer that is
    on the stored object and was not on the event's object is gone
    afterwards. *)
Theorem addFinalizer_goroutine_overwrites {W : Type} (w : Watcher W) (node : Node)
    (rest : list Node) (stored : Node) :
  finalizerAdds w = node :: rest →
  client w !! node_Name node = Some stored →
  ∃ w', step w LAddFinalizer = Some w'
        ∧ client w' !! node_Name node
          = Some (setFinalizers stored (Finalizers node ++ [FinalizerName]))
        ∧ finalizerAdds w' = rest
        ∧ patches w'
          = patches w ++ [mkPatch (node_Name node) (Finalizers node ++ [FinalizerName])]
        ∧ (∀ f after, client w' !! node_Name node = Some after →
             f ∈ Finalizers stored → f ∉ Finalizers node → f ≠ FinalizerName →
             f ∉ Finalizers after).
Proof.
  intros Hfa Hstored. cbn [step]. rewrite Hfa.
  rewrite (addFinalizer_stored _ _ stored) by done.
  eexists. split; [done|]. cbn. rewrite lookup_insert_eq.
  repeat split; try done.
  intros f after [= <-] _ Hnot Hne Hin. cbn in Hin.
  apply elem_of_app in Hin as [?|Hin]; [done|].
  by apply list_elem_of_singleton in Hin.
Qed.

Lemma addFinalizer_goroutine_overwrites_witness :
  ∃ w', step Examples.addPending LAddFinalizer = Some w'
        ∧ client w' !! "n4" = Some (Scenario.live "n4" [FinalizerName] ∅).
Proof.
  destruct (addFinalizer_goroutine_overwrites Examples.addPending Examples.bare []
              Examples.bareClaimed)
    as (w' & Hstep & Hclient & _); [reflexivity|reflexivity|].
  exists w'. split; [exact Hstep|exact Hclient].
Defined.

Section Convergence.

Context {W : Type}.
Variables (r : Registry W) (node : Node) (x0 : W).
Hypothesis Hdel : DeletionTimestamp node ≠ None.
Hypothesis Hfin : containsFinalizer (Finalizers node) FinalizerName = true.
Hypothesis Hskip : annotation node SkipCleanupAnnotation ≠ "true".

Lemma run_app (w : Watcher W) (l1 l2 : list Label) :
  run w (l1 ++ l2) = match run w l1 with Some w' => run w' l2 | None => None end.
Proof.
  revert w. induction l1 as [|l l1 IH]; intros w; cbn; [done|].
  destruct (step w l); [apply IH|done].
Qed.

Lemma wouldSend_pending (w : Watcher W) :
  node_Name node ∉ processing w → wouldSend w node = true.
Proof.
  intros Hnot. unfold wouldSend. rewrite Hfin.
  rewrite bool_decide_eq_false_2 by done.
  by rewrite bool_decide_eq_false_2.
Qed.

Lemma enqueue_pending (w : Watcher W) :
  processing w = ∅ → workqueue w = [] →
  canEnqueue w node = true
  ∧ enqueueIfDeleting w node
    = setWorkqueue (setProcessing w {[node_Name node]}) [node_Name node].
Proof.
  intros Hp Hq. split.
  - unfold canEnqueue. rewrite Hq. cbn. apply orb_true_r.
  - unfold enqueueIfDeleting, LoadOrStore. rewrite Hfin.
    rewrite bool_decide_eq_false_2 by done. cbn [negb].
    rewrite Hp, Hq. rewrite decide_False by apply not_elem_of_empty.
    by rewrite union_empty_r_L.
Qed.

Lemma first_update_queues :
  step (New {[node_Name node := node]} r x0) (LUpdate node)
    = Some (queuedFor r node x0 0).
Proof.
  cbn [step]. rewrite ensureFinalizer_adds.
  assert (lacksFinalizer node = false) as ->.
  { unfold lacksFinalizer. by rewrite bool_decide_eq_true_2. }
  destruct (enqueue_pending (New {[node_Name node := node]} r x0)) as [-> ->]; done.
Qed.

Lemma retry_queues (j : nat) :
  step (failedAt r node x0 j) (LRetryFire (node_Name node))
    = Some (queuedFor r node x0 (S j)).
Proof.
  cbn [step]. rewrite bool_decide_eq_true_2 by (cbn; by left).
  unfold retryFire, retryCancel, Get. cbn [client setRetries setProcessing failedAt].
  rewrite lookup_singleton_eq.
  match goal with |- context [canEnqueue ?w1 node] =>
    destruct (enqueue_pending w1) as [-> ->] end.
  - cbn. unfold Delete. apply difference_disjoint_L, disjoint_empty_l.
  - done.
  - unfold queuedFor, failedAt, setWorkqueue, setProcessing, setRetries. cbn.
    by rewrite String.eqb_refl.
Qed.

Lemma attempt_fails (j : nat) :
  runErr (RunAll r node (attemptWorld r node x0 j)) ≠ None →
  run (queuedFor r node x0 j) [LReceive; LProcess] = Some (failedAt r node x0 j).
Proof.
  intros Hfail.
  change (run (queuedFor r node x0 j) [LReceive; LProcess])
    with (Some (setActive
                  (processNode (setActive (setWorkqueue (queuedFor r node x0 j) [])
                                  (Some (node_Name node))) (node_Name node)) None)).
  f_equal. unfold processNode, Get.
  cbn [client setActive setWorkqueue queuedFor]. rewrite lookup_singleton_eq.
  rewrite bool_decide_eq_false_2 by done. rewrite Hfin. cbn [negb orb].
  destruct (String.eqb_spec (annotation node SkipCleanupAnnotation) "true"); [done|].
  destruct (runErr (RunAll r node (attemptWorld r node x0 j))) as [e|] eqn:He; [|done].
  unfold runCleanup, release, Delete, failedAt.
  cbn -[attemptWorld attemptCalls RunAll]. rewrite He.
  cbn -[attemptWorld attemptCalls RunAll].
  by rewrite difference_diag_L.
Qed.

Lemma attempt_succeeds (j : nat) :
  runErr (RunAll r node (attemptWorld r node x0 j)) = None →
  run (queuedFor r node x0 j) [LReceive; LProcess] = Some (cleanedAt r node x0 j).
Proof.
  intros Hok.
  change (run (queuedFor r node x0 j) [LReceive; LProcess])
    with (Some (setActive
                  (processNode (setActive (setWorkqueue (queuedFor r node x0 j) [])
                                  (Some (node_Name node))) (node_Name node)) None)).
  f_equal. unfold processNode, Get.
  cbn [client setActive setWorkqueue queuedFor]. rewrite lookup_singleton_eq.
  rewrite bool_decide_eq_false_2 by done. rewrite Hfin. cbn [negb orb].
  destruct (String.eqb_spec (annotation node SkipCleanupAnnotation) "true"); [done|].
  unfold runCleanup, release, Delete, cleanedAt, removeFinalizer, PatchNode, Get.
  cbn -[attemptWorld attemptCalls RunAll removeFinalizer_list]. rewrite Hok.
  cbn -[attemptWorld attemptCalls RunAll removeFinalizer_list].
  rewrite lookup_singleton_eq.
  cbn -[attemptWorld attemptCalls RunAll removeFinalizer_list].
  rewrite lookup_singleton_eq.
  cbn -[attemptWorld attemptCalls RunAll removeFinalizer_list].
  by rewrite removeFinalizer_list_filter, difference_diag_L, insert_singleton_eq.
Qed.

Lemma attempts_converge (k j : nat) :
  (∀ i, j ≤ i < j + k → runErr (RunAll r node (attemptWorld r node x0 i)) ≠ None) →
  runErr (RunAll r node (attemptWorld r node x0 (j + k))) = None →
  run (queuedFor r node x0 j)
      ([LReceive; LProcess]
       ++ concat (replicate k [LRetryFire (node_Name node); LReceive; LProcess]))
    = Some (cleanedAt r node x0 (j + k)).
Proof.
  revert j. induction k as [|k IH]; intros j Hfail Hok.
  - cbn [replicate concat]. rewrite app_nil_r, Nat.add_0_r in *.
    by apply attempt_succeeds.
  - rewrite run_app, attempt_fails by (apply Hfail; lia).
    cbn [replicate concat]. cbn [app run]. rewrite retry_queues.
    replace (j + S k) with (S j + k) in * by lia.
    apply (IH (S j)); [|done]. intros i Hi. apply Hfail. lia.
Qed.

End Convergence.

(** X18. Retry convergence. If the cleanup of a node that is pending
    deletion with the finalizer fails on the first [k] attempts and succeeds
    on the next one, then an update event followed by the [k] retries leaves
    the cluster's node without the finalizer after [k + 1] attempts: exactly
    one patch has been sent, the queue, the in-flight set and the retry
    goroutines are empty, and the cleanup calls are those of the [k + 1]
    runs of [RunAll], in sequence. *)
Theorem retries_converge {W : Type} (r : Registry W) (node : Node) (x0 : W) (k : nat) :
  DeletionTimestamp node ≠ None →
  containsFinalizer (Finalizers node) FinalizerName = true →
  annotation node SkipCleanupAnnotation ≠ "true" →
  (∀ i, i < k → runErr (RunAll r node (attemptWorld r node x0 i)) ≠ None) →
  runErr (RunAll r node (attemptWorld r node x0 k)) = None →
  run (New {[node_Name node := node]} r x0) (retrySchedule node k)
    = Some (cleanedAt r node x0 k).
Proof.
  intros Hdel Hfin Hskip Hfail Hok. unfold retrySchedule.
  change ([LUpdate node; LReceive; LProcess] ++ ?l)
    with (LUpdate node :: ([LReceive; LProcess] ++ l)).
  cbn [run]. rewrite first_update_queues by done.
  apply (attempts_converge r node x0 Hdel Hfin Hskip k 0); [|done].
  intros i Hi. apply Hfail. lia.
Qed.

Lemma retries_converge_witness :
  ∃ w, run (New {["n1" := Scenario.n1]} (Examples.flakyOnly 2) 0)
           (retrySchedule Scenario.n1 2) = Some w
       ∧ world w = 3
       ∧ cleanupCalls w = ["flaky"; "flaky"; "flaky"]
       ∧ patches w = [mkPatch "n1" ["other"]]
       ∧ client w !! "n1" = Some (setFinalizers Scenario.n1 ["other"]).
Proof.
  eexists. split.
  - apply (retries_converge (Examples.flakyOnly 2) Scenario.n1 0 2);
      [discriminate|reflexivity|discriminate| |reflexivity].
    intros i Hi. destruct i as [|[|i]]; [discriminate|discriminate|lia].
  - repeat split; reflexivity.
Defined.

(** * Behaviour of the admission webhook *)

(** X19. [mutateNode] refuses a request only when it is a CREATE whose
    object cannot be decoded, and then sends no patch; every other request
    is allowed. It answers with a patch exactly for a CREATE of a node that
    decodes and does not carry the finalizer. *)
Theorem mutateNode_refuses_only_undecodable (Unmarshal : string → Node + error)
    (req : AdmissionRequest) :
  (Allowed (mutateNode Unmarshal req) = false ↔
     Operation req = OperationCreate ∧ ∃ err, Unmarshal (ObjectRaw req) = inr err)
  ∧ (is_Some (ResponsePatch (mutateNode Unmarshal req)) ↔
       Operation req = OperationCreate
       ∧ ∃ node, Unmarshal (ObjectRaw req) = inl node
                 ∧ containsFinalizer (Finalizers node) FinalizerName = false)
  ∧ (Allowed (mutateNode Unmarshal req) = false →
     ResponsePatch (mutateNode Unmarshal req) = None
     ∧ ∃ err, ResultMessage (mutateNode Unmarshal req)
                = Some ("failed to unmarshal node: " +:+ Error err)).
Proof.
  unfold mutateNode.
  destruct (String.eqb_spec (Operation req) OperationCreate) as [Hop|Hop]; cbn [negb].
  2:{ cbn. split; [|split]; [split| |done].
      - done.
      - by intros [? _].
      - split; [by intros [? ?]|by intros [? _]]. }
  destruct (Unmarshal (ObjectRaw req)) as [node|err]; cbn.
  - destruct (containsFinalizer (Finalizers node) FinalizerName) eqn:Hc; cbn.
    + split; [|split]; [split| |done].
      * done.
      * by intros [_ [? ?]].
      * split; [by intros [? ?]|]. intros [_ (n & [= <-] & Hn)]. congruence.
    + split; [|split]; [split| |done].
      * done.
      * by intros [_ [? ?]].
      * split; [|by eexists]. intros _. split; [done|]. by exists node.
  - split; [|split].
    + split; [|done]. intros _. split; [done|]. by eexists.
    + split; [by intros [? ?]|]. by intros [_ (n & ? & _)].
    + intros _. split; [done|]. by eexists.
Qed.

(** X20. For a CREATE of a node that decodes and does not carry the
    finalizer, the patch of [mutateNode] is one [add] operation, and
    applying it leaves the node's finalizers with the finalizer appended:
    the list the watcher's [addFinalizer] would send, holding the finalizer
    exactly once. On the node so patched both add paths are idle:
    [ensureFinalizer] does nothing and [mutateNode] sends no patch. *)
Theorem mutateNode_patch_appends_the_finalizer (Unmarshal : string → Node + error)
    (req : AdmissionRequest) (node : Node) :
  Operation req = OperationCreate →
  Unmarshal (ObjectRaw req) = inl node →
  containsFinalizer (Finalizers node) FinalizerName = false →
  ∃ o, ResponsePatch (mutateNode Unmarshal req) = Some [o]
       ∧ op o = "add"
       ∧ applyJSONPatch node [o] = Some (withFinalizer node)
       ∧ Finalizers (withFinalizer node) = addFinalizer_list node
       ∧ markerCount (Finalizers (withFinalizer node)) = 1
       ∧ (∀ (W : Type) (w : Watcher W), ensureFinalizer w (withFinalizer node) = w)
       ∧ (∀ req', Unmarshal (ObjectRaw req') = inl (withFinalizer node) →
            ResponsePatch (mutateNode Unmarshal req') = None).
Proof.
  intros Hop Hnode Hc.
  assert (containsFinalizer (Finalizers (withFinalizer node)) FinalizerName = true) as Hhas
    by apply containsFinalizer_app_marker.
  assert (∃ o, ResponsePatch (mutateNode Unmarshal req) = Some [o]
               ∧ op o = "add" ∧ applyJSONPatch node [o] = Some (withFinalizer node))
    as (o & Hpatch & Hadd & Happly).
  { unfold mutateNode. rewrite Hop, Hnode, Hc. cbn [negb String.eqb].
    rewrite String.eqb_refl. cbn [negb ResponsePatch].
    destruct (Finalizers node) as [|f fs] eqn:Hfs; cbn [length Nat.eqb app].
    - eexists. split; [done|]. split; [done|].
      unfold withFinalizer. rewrite Hfs. done.
    - eexists. split; [done|]. split; [done|].
      unfold withFinalizer. cbn. by rewrite Hfs. }
  exists o. split; [done|]. split; [done|]. split; [done|].
  split; [done|]. split; [|split].
  - unfold markerCount, withFinalizer. cbn [Finalizers setFinalizers].
    rewrite filter_app, length_app, (containsFinalizer_false_filter _ _ Hc).
    by rewrite filter_cons_True.
  - intros W w. unfold ensureFinalizer. rewrite Hhas. by case_bool_decide.
  - intros req' Hreq'. unfold mutateNode. rewrite Hreq', Hhas.
    by destruct (negb (String.eqb (Operation req') OperationCreate)).
Qed.

Lemma mutateNode_patch_appends_the_finalizer_witness :
  ResponsePatch (mutateNode Examples.decode (mkAdmissionRequest "CREATE" "bare"))
    = Some [mkJSONPatchOp "add" "/metadata/finalizers" (ValueStrings [FinalizerName])]
  ∧ ∃ o, applyJSONPatch Examples.bare [o] = Some (withFinalizer Examples.bare).
Proof.
  split; [reflexivity|].
  destruct (mutateNode_patch_appends_the_finalizer Examples.decode
              (mkAdmissionRequest "CREATE" "bare") Examples.bare)
    as (o & _ & _ & Happly & _); [reflexivity..|].
  exists o. exact Happly.
Defined.

(** * Behaviour of the configuration *)

Lemma getEnv_nonempty (env : gmap string string) (key defaultValue : string) :
  defaultValue ≠ "" → getEnv env key defaultValue ≠ "".
Proof.
  intros Hd. unfold getEnv.
  by destruct (String.eqb_spec (Getenv env key) "").
Qed.

Lemma SplitComma_length (s : string) : length (SplitComma s) = S (countCommas s).
Proof.
  induction s as [|c rest IH]; [done|]. cbn [SplitComma countCommas].
  destruct (String.eqb (String c "") ","); cbn; [by rewrite IH|].
  destruct (SplitComma rest); cbn in *; [done|lia].
Qed.

Lemma isPluginEnabled_loop_elem_of (names : list string) (pluginName : string) :
  isPluginEnabled_loop names pluginName = true ↔ pluginName ∈ names.
Proof.
  induction names as [|name rest IH]; cbn.
  - split; [done|]. intros Hin. by apply elem_of_nil in Hin.
  - destruct (String.eqb_spec name pluginName) as [->|Hne].
    + split; [intros _; by left|done].
    + rewrite IH, elem_of_cons. split; [by right|]. intros [?|?]; [congruence|done].
Qed.

(** X21. The list of enabled plugins that [LoadFromEnv] builds is the list
    of the comma-separated fields of [ENABLED_PLUGINS], each trimmed; it has
    one entry more than the value has commas and is never empty. With the
    variable unset or set to the empty string it is the one entry made from
    the default ["logger"]. *)
Theorem loadFromEnv_enabled_plugins (TrimSpace : string → string)
    (Atoi : string → option Z) (ParseBool : string → option bool)
    (env : gmap string string) :
  EnabledPlugins (LoadFromEnv TrimSpace Atoi ParseBool env)
    = TrimSpace <$> SplitComma (getEnv env "ENABLED_PLUGINS" "logger")
  ∧ length (EnabledPlugins (LoadFromEnv TrimSpace Atoi ParseBool env))
    = S (countCommas (getEnv env "ENABLED_PLUGINS" "logger"))
  ∧ EnabledPlugins (LoadFromEnv TrimSpace Atoi ParseBool env) ≠ []
  ∧ (Getenv env "ENABLED_PLUGINS" = "" →
     EnabledPlugins (LoadFromEnv TrimSpace Atoi ParseBool env) = [TrimSpace "logger"]).
Proof.
  assert (EnabledPlugins (LoadFromEnv TrimSpace Atoi ParseBool env)
          = TrimSpace <$> SplitComma (getEnv env "ENABLED_PLUGINS" "logger")) as Heq.
  { unfold LoadFromEnv. cbn zeta.
    destruct (String.eqb_spec (getEnv env "ENABLED_PLUGINS" "logger") "") as [He|He].
    - by apply getEnv_nonempty in He.
    - done. }
  split; [done|].
  assert (length (EnabledPlugins (LoadFromEnv TrimSpace Atoi ParseBool env))
          = S (countCommas (getEnv env "ENABLED_PLUGINS" "logger"))) as Hlen.
  { by rewrite Heq, length_fmap, SplitComma_length. }
  split; [done|]. split.
  - intros Hnil. by rewrite Hnil in Hlen.
  - intros Hunset. rewrite Heq. unfold getEnv. by rewrite Hunset.
Qed.

(** X22. [GetPluginOption] treats an option that is set to the empty
    string like one that is missing, and like an unknown plugin: it returns
    the default. What it returns is either the default or a non-empty value
    stored for that plugin and option, so it returns the empty string only
    if the default is empty. *)
Theorem getPluginOption_empty_is_unset (c : Config)
    (pluginName optionName d : string) :
  (GetPluginOption c pluginName optionName d = d
   ∨ (GetPluginOption c pluginName optionName d ≠ ""
      ∧ ∃ cfg, PluginConfigs c !! pluginName = Some cfg
               ∧ Options cfg !! optionName
                 = Some (GetPluginOption c pluginName optionName d)))
  ∧ (d ≠ "" → GetPluginOption c pluginName optionName d ≠ "")
  ∧ (∀ cfg, PluginConfigs c !! pluginName = Some cfg →
       Options cfg !! optionName = Some "" →
       GetPluginOption c pluginName optionName d = d).
Proof.
  assert (GetPluginOption c pluginName optionName d = d
          ∨ (GetPluginOption c pluginName optionName d ≠ ""
             ∧ ∃ cfg, PluginConfigs c !! pluginName = Some cfg
                      ∧ Options cfg !! optionName
                        = Some (GetPluginOption c pluginName optionName d))) as Hcases.
  { unfold GetPluginOption.
    destruct (PluginConfigs c !! pluginName) as [cfg|]; [|by left].
    destruct (Options cfg !! optionName) as [val|] eqn:Hval; [|by left].
    destruct (String.eqb_spec val "") as [->|Hne]; cbn [negb]; [by left|].
    right. split; [done|]. by exists cfg. }
  split; [done|]. split.
  - intros Hd. destruct Hcases as [->|[? _]]; done.
  - intros cfg Hcfg Hopt. unfold GetPluginOption. by rewrite Hcfg, Hopt.
Qed.

(** X23. On the configuration that [LoadFromEnv] builds, the portworx label
    selector is the value of [PORTWORX_LABEL_SELECTOR], or
    ["px/enabled=true"] when that is unset or empty, whatever default the
    caller passes, so it is never empty; a plugin other than ["logger"] and
    ["portworx"] has no options and always gets the caller's default; and
    the [Enabled] flag of each of the two says whether its name is in the
    list of enabled plugins. *)
Theorem loaded_plugin_configs (TrimSpace : string → string)
    (Atoi : string → option Z) (ParseBool : string → option bool)
    (env : gmap string string) (pluginName optionName d : string) :
  GetPluginOption (LoadFromEnv TrimSpace Atoi ParseBool env) "portworx" "labelSelector" d
    = getEnv env "PORTWORX_LABEL_SELECTOR" "px/enabled=true"
  ∧ GetPluginOption (LoadFromEnv TrimSpace Atoi ParseBool env) "portworx" "labelSelector" d
    ≠ ""
  ∧ (pluginName ≠ "logger" → pluginName ≠ "portworx" →
     GetPluginOption (LoadFromEnv TrimSpace Atoi ParseBool env) pluginName optionName d = d)
  ∧ Enabled <$> PluginConfigs (LoadFromEnv TrimSpace Atoi ParseBool env) !! "portworx"
    = Some (bool_decide
              ("portworx" ∈ EnabledPlugins (LoadFromEnv TrimSpace Atoi ParseBool env)))
  ∧ Enabled <$> PluginConfigs (LoadFromEnv TrimSpace Atoi ParseBool env) !! "logger"
    = Some (bool_decide
              ("logger" ∈ EnabledPlugins (LoadFromEnv TrimSpace Atoi ParseBool env))).
Proof.
  assert (∀ names name, isPluginEnabled_loop names name = bool_decide (name ∈ names))
    as Hen.
  { intros names name. apply eq_true_iff_eq.
    by rewrite isPluginEnabled_loop_elem_of, bool_decide_eq_true. }
  assert (GetPluginOption (LoadFromEnv TrimSpace Atoi ParseBool env)
            "portworx" "labelSelector" d
          = getEnv env "PORTWORX_LABEL_SELECTOR" "px/enabled=true") as Hsel.
  { unfold GetPluginOption, LoadFromEnv, loadPluginConfigs. cbn zeta.
    cbn [PluginConfigs setPluginConfigs]. rewrite lookup_insert_eq.
    cbn [Options]. rewrite lookup_insert_ne by done. rewrite lookup_insert_ne by done.
    rewrite lookup_insert_eq.
    destruct (String.eqb_spec (getEnv env "PORTWORX_LABEL_SELECTOR" "px/enabled=true") "")
      as [He|He]; [|done].
    by apply getEnv_nonempty in He. }
  split; [done|]. split; [rewrite Hsel; by apply getEnv_nonempty|].
  split; [|split].
  - intros Hl Hp. unfold GetPluginOption, LoadFromEnv, loadPluginConfigs. cbn zeta.
    cbn [PluginConfigs setPluginConfigs].
    rewrite lookup_insert_ne by done. rewrite lookup_insert_ne by done.
    destruct (negb _); cbn [PluginConfigs]; by rewrite lookup_empty.
  - unfold LoadFromEnv, loadPluginConfigs. cbn zeta.
    cbn [PluginConfigs setPluginConfigs]. rewrite lookup_insert_eq. cbn.
    f_equal. unfold isPluginEnabled. by rewrite Hen.
  - unfold LoadFromEnv, loadPluginConfigs. cbn zeta.
    cbn [PluginConfigs setPluginConfigs]. rewrite lookup_insert_ne by done.
    rewrite lookup_insert_eq. cbn. f_equal. unfold isPluginEnabled. by rewrite Hen.
Qed.

Lemma loaded_plugin_configs_witness :
  GetPluginOption
    (LoadFromEnv Examples.noTrim Examples.noAtoi Examples.noParseBool
       {["PORTWORX_LABEL_SELECTOR" := ""]})
    "slack" "channel" "#infrastructure" = "#infrastructure".
Proof.
  destruct (loaded_plugin_configs Examples.noTrim Examples.noAtoi Examples.noParseBool
              {["PORTWORX_LABEL_SELECTOR" := ""]} "slack" "channel" "#infrastructure")
    as (_ & _ & Hother & _).
  apply Hother; discriminate.
Defined.
